(** * Keyword-path statistics for DSN files: a model of [scripts/dsn.py]

    The script reads each file named on the command line, tokenises it and
    walks the tokens while keeping a stack of group names ([path]); every
    time a name is pushed, the dot-joined stack is counted in the dictionary
    [counts].  After the last file the dictionary is printed.

    Python values are modelled as follows.
    - A [str] is a list of characters, a character being a code point below
      256 (Rocq's [ascii]); [data[i]] is [nth_error data i], and an index
      past the end raises [IndexError].
    - A list is a list, with [append] adding at the end and [pop] removing
      the last element.
    - The dictionary [counts] is an association list in insertion order with
      pairwise distinct keys (the order is the one [items()] iterates in).
    - The two module-level variables [path] and [counts] make up the record
      [Globals], which is threaded through every call and survives an
      exception.
    - An exception is the constructor [Raise] of the result type. *)

From Equations Require Import Equations.
From Equations.Prop Require Import Logic.
From Stdlib Require Import Ascii String DecimalString.
From Stdlib Require Import List Arith NArith Bool Lia PeanoNat.
From Stdlib Require Import Sorting.Sorted Sorting.Permutation.
Import ListNotations.

Set Implicit Arguments.

(** ** Python strings *)

Definition str := list ascii.

(** A string literal of the source. *)
Definition lit (s : string) : str := list_ascii_of_string s.
Arguments lit s%_string.

Module Py.

Fixpoint str_eqb (a b : str) : bool :=
  match a, b with
  | [], [] => true
  | x :: a', y :: b' => Ascii.eqb x y && str_eqb a' b'
  | _, _ => false
  end.

(** [c.isspace()], which is also what [\s] matches in a [str] pattern and
    what [strip()] removes: TAB..CR, FS..US, space, NEL and NBSP. *)
Definition isspace (c : ascii) : bool :=
  let n := nat_of_ascii c in
  ((9 <=? n) && (n <=? 13)) || ((28 <=? n) && (n <=? 32))
  || (n =? 133) || (n =? 160).

(** [c.lower()] on code points below 256: [A-Z] and the Latin-1 capitals
    (U+00C0..U+00DE but the multiplication sign U+00D7) move up by 32. *)
Definition lower_char (c : ascii) : ascii :=
  let n := nat_of_ascii c in
  if ((65 <=? n) && (n <=? 90))
     || ((192 <=? n) && (n <=? 222) && negb (n =? 215))
  then ascii_of_nat (n + 32) else c.

Definition lower (s : str) : str := map lower_char s.

(** [s.startswith(p)] *)
Fixpoint startswith (p s : str) : bool :=
  match p, s with
  | [], _ => true
  | _ :: _, [] => false
  | x :: p', y :: s' => Ascii.eqb x y && startswith p' s'
  end.

(** [sub in s] *)
Fixpoint contains (sub s : str) : bool :=
  startswith sub s ||
  match s with
  | [] => false
  | _ :: s' => contains sub s'
  end.

(** [s.replace(old, '')]: the occurrences of [old] are found from left to
    right and do not overlap; the scan resumes after each one. *)
Equations? remove_all (old s : str) : str by wf (length s) lt :=
  remove_all [] s := s;
  remove_all (o :: old') [] := [];
  remove_all (o :: old') (c :: s') with startswith (o :: old') (c :: s') := {
    | true := remove_all (o :: old') (skipn (length old') s');
    | false := c :: remove_all (o :: old') s' }.
Proof. rewrite length_skipn. simpl. lia. Qed.

Fixpoint lstrip (s : str) : str :=
  match s with
  | c :: s' => if isspace c then lstrip s' else s
  | [] => []
  end.

Definition rstrip (s : str) : str := rev (lstrip (rev s)).

(** [s.strip()] *)
Definition strip (s : str) : str := lstrip (rstrip s).

(** ['.'.join(l)] and friends. *)
Fixpoint join (sep : str) (l : list str) : str :=
  match l with
  | [] => []
  | [x] => x
  | x :: l' => x ++ sep ++ join sep l'
  end.

(** [re.split(r'([()\s])', s)]: the text is cut at every parenthesis and
    every white-space character, and the separators, being captured, are
    returned between the pieces.  [cur] is the piece being read. *)
Definition is_sep (c : ascii) : bool :=
  Ascii.eqb c "("%char || Ascii.eqb c ")"%char || isspace c.

Fixpoint re_split_from (cur : str) (s : str) : list str :=
  match s with
  | [] => [cur]
  | c :: s' =>
      if is_sep c then cur :: [c] :: re_split_from [] s'
      else re_split_from (cur ++ [c]) s'
  end.

Definition re_split (s : str) : list str := re_split_from [] s.

(** ['%d' % n] for a natural number. *)
Definition fmt_d (n : nat) : str := lit (NilZero.string_of_uint (Nat.to_uint n)).

(** Comparison of strings: lexicographic on code points, a proper prefix
    being smaller. *)
Fixpoint str_compare (a b : str) : comparison :=
  match a, b with
  | [], [] => Eq
  | [], _ :: _ => Lt
  | _ :: _, [] => Gt
  | x :: a', y :: b' =>
      match Ascii.compare x y with
      | Eq => str_compare a' b'
      | r => r
      end
  end.

End Py.

(** ** Dictionaries and sorting *)

Module Dict.

(** A [dict] from strings to numbers, in insertion order. *)
Definition t := list (str * nat).

Fixpoint get (k : str) (d : t) : option nat :=
  match d with
  | [] => None
  | (k', v) :: d' => if Py.str_eqb k k' then Some v else get k d'
  end.

(** [d.setdefault(k, v)]: a new key goes to the end. *)
Definition setdefault (k : str) (v : nat) (d : t) : t :=
  match get k d with
  | Some _ => d
  | None => d ++ [(k, v)]
  end.

(** [d[k] += 1] for a key of [d]; the entry keeps its place. *)
Fixpoint incr (k : str) (d : t) : t :=
  match d with
  | [] => []
  | (k', v) :: d' =>
      if Py.str_eqb k k' then (k', v + 1) :: d' else (k', v) :: incr k d'
  end.

(** [d.items()] *)
Definition items (d : t) : list (str * nat) := d.

End Dict.

Section Sort.
Variables (A K : Type) (key : A -> K) (lt : K -> K -> bool).

(** [l.sort(key=key)]: a stable sort that only asks whether one key is
    less than another. *)
Fixpoint sort_insert (x : A) (l : list A) : list A :=
  match l with
  | [] => [x]
  | y :: l' =>
      if lt (key y) (key x) then y :: sort_insert x l' else x :: y :: l'
  end.

Fixpoint sort (l : list A) : list A :=
  match l with
  | [] => []
  | x :: l' => sort_insert x (sort l')
  end.
End Sort.

(** [a < b] on tuples [(str, int)]: the first components decide unless they
    are equal. *)
Definition tuple_lt (a b : str * nat) : bool :=
  match Py.str_compare (fst a) (fst b) with
  | Lt => true
  | Eq => snd a <? snd b
  | Gt => false
  end.

(** ** Exceptions and the module-level state *)

Inductive exn := IndexError | AssertionError | OSError.

Inductive result (A : Type) :=
| Ok (a : A)
| Raise (e : exn).
Arguments Ok {A} a.
Arguments Raise {A} e.

(** [path = []] and [counts = {}] at module level. *)
Record Globals := { path : list str; counts : Dict.t }.

Definition init : Globals := {| path := []; counts := [] |}.

(** A computation reads and writes the globals and returns or raises; the
    globals it leaves behind are kept in both cases. *)
Definition M (A : Type) := Globals -> result A * Globals.

Definition ret {A} (a : A) : M A := fun g => (Ok a, g).
Definition raise {A} (e : exn) : M A := fun g => (Raise e, g).
Definition bind {A B} (m : M A) (f : A -> M B) : M B :=
  fun g =>
    match m g with
    | (Ok a, g') => f a g'
    | (Raise e, g') => (Raise e, g')
    end.

Notation "x <- m ;; k" := (bind m (fun x => k))
  (at level 61, m at next level, right associativity).
Notation "m ;;; k" := (bind m (fun _ => k))
  (at level 61, right associativity).

Definition assert (b : bool) : M unit :=
  if b then ret tt else raise AssertionError.

(** [path.append(x)] *)
Definition path_append (x : str) : M unit :=
  fun g => (Ok tt, {| path := path g ++ [x]; counts := counts g |}).

(** [path.pop()] *)
Definition path_pop : M unit :=
  fun g =>
    match path g with
    | [] => (Raise IndexError, g)
    | _ :: _ => (Ok tt, {| path := removelast (path g); counts := counts g |})
    end.

(** [len(path)] *)
Definition path_len : M nat := fun g => (Ok (length (path g)), g).

(** ** The keyword table *)

Local Open Scope string_scope.
Definition keywords : list str := map lit [
    "absolute"; "added"; "add_group"; "add_pins"; "allow_antenna"; 
    "allow_redundant_wiring"; "amp"; "ancestor"; "antipad"; "aperture_type"; 
    "array"; "attach"; "attr"; "average_pair_length"; "back"; "base_design"; 
    "bbv_ctr2ctr"; "bend_keepout"; "bond"; "both"; "bottom"; 
    "bottom_layer_sel"; "boundary"; "brickpat"; "bundle"; "bus"; "bypass"; 
    "capacitance_resolution"; "capacitor"; "case_sensitive"; "cct1"; "cct1a"; 
    "center_center"; "checking_trim_by_pin"; "circ"; "circle"; "circuit"; 
    "class"; "class_class"; "classes"; "clear"; "clearance"; "cluster"; "cm"; 
    "color"; "colors"; "comment"; "comp"; "comp_edge_center"; "comp_order"; 
    "component"; "composite"; "conductance_resolution"; "conductor"; 
    "conflict"; "connect"; "constant"; "contact"; "control"; "corner"; 
    "corners"; "cost"; "created_time"; "cross"; "crosstalk_model"; 
    "current_resolution"; "deleted"; "deleted_keepout"; "delta"; "diagonal"; 
    "direction"; "directory"; "discrete"; "effective_via_length"; 
    "elongate_keepout"; "exclude"; "expose"; "extra_image_directory"; "family"; 
    "family_family"; "family_family_spacing"; "fanout"; "farad"; "file"; "fit"; 
    "fix"; "flip_style"; "floor_plan"; "footprint"; "forbidden"; 
    "force_to_terminal_point"; "forgotten"; "free"; "fromto"; "front"; 
    "front_only"; "gap"; "gate"; "gates"; "generated_by_freeroute"; "global"; 
    "grid"; "group"; "group_set"; "guide"; "hard"; "height"; "high"; "history"; 
    "horizontal"; "host_cad"; "host_version"; "image"; "image_conductor"; 
    "image_image"; "image_image_spacing"; "image_outline_clearance"; 
    "image_set"; "image_type"; "inch"; "include"; "include_pins_in_crosstalk"; 
    "inductance_resolution"; "insert"; "instcnfg"; "inter_layer_clearance"; 
    "jumper"; "junction_type"; "keepout"; "kg"; "kohm"; "large"; "large_large"; 
    "layer"; "layer_depth"; "layer_noise_weight"; "layer_pair"; "layer_rule"; 
    "length"; "length_amplitude"; "length_factor"; "length_gap"; "library"; 
    "library_out"; "limit"; "limit_bends"; "limit_crossing"; "limit_vias"; 
    "limit_way"; "linear"; "linear_interpolation"; "load"; "lock_type"; 
    "logical_part"; "logical_part_mapping"; "low"; "match_fromto_delay"; 
    "match_fromto_length"; "match_group_delay"; "match_group_length"; 
    "match_net_delay"; "match_net_length"; "max_delay"; "max_len"; 
    "max_length"; "max_noise"; "max_restricted_layer_length"; "max_stagger"; 
    "max_stub"; "max_total_delay"; "max_total_length"; "max_total_vias"; 
    "medium"; "mhenry"; "mho"; "microvia"; "mid_driven"; "mil"; "min_gap"; 
    "mirror"; "mirror_first"; "mixed"; "mm"; "negative_diagonal"; "net"; 
    "net_number"; "net_out"; "net_pin_changes"; "nets"; "network"; 
    "network_out"; "no"; "noexpose"; "noise_accumulation"; "noise_calculation"; 
    "normal"; "object_type"; "off"; "off_grid"; "offset"; "on"; "open"; 
    "opposite_side"; "order"; "orthogonal"; "outline"; "overlap"; "pad"; 
    "pad_pad"; "padstack"; "pair"; "parallel"; "parallel_noise"; 
    "parallel_segment"; "parser"; "part_library"; "path"; "pcb"; 
    "permit_orient"; "permit_side"; "physical"; "physical_part_mapping"; 
    "piggyback"; "pin"; "pin_allow"; "pin_cap_via"; "pin_via_cap"; 
    "pin_width_taper"; "pins"; "pintype"; "place"; "place_boundary"; 
    "place_control"; "place_keepout"; "place_rule"; "placement"; "plan"; 
    "plane"; "pn"; "point"; "polyline_path"; "polygon"; "position"; 
    "positive_diagonal"; "power"; "power_dissipation"; "power_fanout"; 
    "prefix"; "primary"; "priority"; "property"; "protect"; "qarc"; "quarter"; 
    "radius"; "ratio"; "ratio_tolerance"; "rect"; "reduced"; "region"; 
    "region_class"; "region_class_class"; "region_net"; "relative_delay"; 
    "relative_group_delay"; "relative_group_length"; "relative_length"; 
    "reorder"; "reroute_order_viols"; "resistance_resolution"; "resistor"; 
    "resolution"; "restricted_layer_length_factor"; "room"; "rotate"; 
    "rotate_first"; "round"; "roundoff_rotation"; "route"; 
    "route_to_fanout_only"; "routes"; "routes_include"; "rule"; 
    "same_net_checking"; "sample_window"; "saturation_length"; "sec"; 
    "secondary"; "self"; "sequence_number"; "session"; "set_color"; 
    "set_pattern"; "shape"; "shield"; "shield_gap"; "shield_loop"; 
    "shield_tie_down_interval"; "shield_width"; "side"; "signal"; "site"; 
    "small"; "smd"; "snap"; "snap_angle"; "soft"; "source"; 
    "space_in_quoted_tokens"; "spacing"; "spare"; "spiral_via"; "square"; 
    "stack_via"; "stack_via_depth"; "standard"; "starburst"; "status"; 
    "structure"; "structure_out"; "subgate"; "subgates"; "substituted"; "such"; 
    "suffix"; "super_placement"; "supply"; "supply_pin"; "swapping"; 
    "switch_window"; "system"; "tandem_noise"; "tandem_segment"; 
    "tandem_shield_overhang"; "terminal"; "terminator"; "term_only"; "test"; 
    "test_points"; "testpoint"; "threshold"; "time_length_factor"; 
    "time_resolution"; "tjunction"; "tolerance"; "top"; "topology"; "total"; 
    "track_id"; "turret"; "type"; "um"; "unassigned"; "unconnects"; "unit"; 
    "up"; "use_array"; "use_layer"; "use_net"; "use_via"; "value"; "vertical"; 
    "via"; "via_array_template"; "via_at_smd"; "via_keepout"; "via_number"; 
    "via_rotate_first"; "via_site"; "via_size"; "virtual_pin"; "volt"; 
    "voltage_resolution"; "was_is"; "way"; "weight"; "width"; "window"; "wire"; 
    "wire_keepout"; "wires"; "wires_include"; "wiring"; "write_resolution"; 
    "pin_pin"; "smd_pin"; "via_pin"; "wire_pin"; "area_pin"; "testpoint_pin"; 
    "pin_smd"; "smd_smd"; "via_smd"; "wire_smd"; "area_smd"; "testpoint_smd"; 
    "pin_via"; "smd_via"; "via_via"; "wire_via"; "area_via"; "testpoint_via"; 
    "pin_wire"; "smd_wire"; "via_wire"; "wire_wire"; "area_wire"; 
    "testpoint_wire"; "pin_area"; "smd_area"; "via_area"; "wire_area"; 
    "area_area"; "testpoint_area"; "pin_testpoint"; "smd_testpoint"; 
    "via_testpoint"; "wire_testpoint"; "area_testpoint"; "testpoint_testpoint"; 
    "smd_via_same_net"; "via_via_same_net"; "buried_via_gap"; "antipad_gap"; 
    "pad_to_turn_gap"; "smd_to_turn_gap"  ].
Local Close Scope string_scope.

(** ** The functions of the script *)

Definition dot : str := lit ".".

Definition add_path : M unit :=
  fun g =>
    let ct := Py.join dot (path g) in
    let counts := Dict.setdefault ct 0 (counts g) in
    let counts := Dict.incr ct counts in
    (Ok tt, {| path := path g; counts := counts |}).

Definition valid_keyword (t : str) : bool := existsb (Py.str_eqb t) keywords.

Definition print_counts (g : Globals) : list str :=
  let vals := map (fun kv => (snd kv, fst kv)) (Dict.items (counts g)) in
  let vals := sort (fun x => (snd x, fst x)) tuple_lt vals in
  map (fun x => snd x ++ lit ": " ++ Py.fmt_d (fst x)) vals.


(** *** [process]: the text before the quote scan *)

(** The double quote and the backslash, by code point. *)
Definition dquote : ascii := ascii_of_nat 34.
Definition backslash : ascii := ascii_of_nat 92.
Definition squote : ascii := "'"%char.
Definition dollar : ascii := "$"%char.

(** The text [(string_quote q)]. *)
Definition marker (q : ascii) : str := lit "(string_quote " ++ [q] ++ lit ")".

(** The three tests that choose [quote]; a later one overwrites an earlier
    one. *)
Definition detect_quote (data : str) : ascii :=
  let quote := dquote in
  let quote := if Py.contains (marker dquote) data then dquote else quote in
  let quote := if Py.contains (marker squote) data then squote else quote in
  let quote := if Py.contains (marker dollar) data then dollar else quote in
  quote.

(** The four [replace] calls and [lower()]. *)
Definition strip_markers (data : str) : str :=
  let data := Py.remove_all (marker dquote) data in
  let data := Py.remove_all (marker squote) data in
  let data := Py.remove_all (marker dollar) data in
  data.

Definition strip_escapes (data : str) : str :=
  Py.remove_all [backslash; dquote] data.

Definition prepare (data : str) : str :=
  Py.lower (strip_escapes (strip_markers data)).

(** *** [process]: the quote scan *)

(** The inner loop [while data[i] != quote: i += 1]. It returns the final
    [i]; reading [data[i]] past the end raises. *)
Equations? find_quote (data : str) (quote : ascii) (i : nat) : result nat
  by wf (length data - i) lt :=
  find_quote data quote i with inspect (nth_error data i) := {
    | exist _ None _ := Raise IndexError;
    | exist _ (Some c) e with Ascii.eqb c quote := {
        | true := Ok i;
        | false := find_quote data quote (S i) } }.
Proof.
  assert (i < length data) by (apply nth_error_Some; congruence). lia.
Qed.

Lemma find_quote_bounds data quote i j :
  find_quote data quote i = Ok j ->
  i <= j /\ nth_error data j = Some quote.
Proof.
  funelim (find_quote data quote i); intros Hj; try discriminate.
  - inversion Hj; subst. split; [lia|].
    apply Ascii.eqb_eq in Heq. congruence.
  - apply H in Hj. split; [lia | tauto].
Qed.

(** The outer loop [while i < len(data)], from index [i] with [new_data]
    built so far. *)
Equations? quote_loop (data : str) (quote : ascii) (i : nat) (new_data : str)
  : result str by wf (length data - i) lt :=
  quote_loop data quote i new_data with inspect (nth_error data i) := {
    | exist _ None _ := Ok new_data;
    | exist _ (Some c) e with Ascii.eqb c quote := {
        | false := quote_loop data quote (S i) (new_data ++ [c]);
        | true with inspect (find_quote data quote (S i)) := {
            | exist _ (Raise ex) _ := Raise ex;
            | exist _ (Ok j) ej :=
                quote_loop data quote (S j) (new_data ++ [c] ++ [quote]) } } }.
Proof.
  - apply find_quote_bounds in ej. destruct ej as [Hle Hj].
    assert (j < length data) by (apply nth_error_Some; congruence). lia.
  - assert (i < length data) by (apply nth_error_Some; congruence). lia.
Qed.

(** *** [process]: the tokens *)

Definition split_tokens (new_data : str) : list str :=
  let tokens := Py.re_split new_data in
  let tokens := map Py.strip tokens in
  let tokens := filter (fun t => negb (length t =? 0)) tokens in
  tokens.

(** Everything [process] does before its [while idx < len(tokens)] loop. *)
Definition lex (data : str) : result (list str) :=
  let quote := detect_quote data in
  let data := prepare data in
  match quote_loop data quote 0 [] with
  | Ok new_data => Ok (split_tokens new_data)
  | Raise e => Raise e
  end.

(** *** [process]: the walk over the tokens *)

Definition lparen : str := lit "(".
Definition rparen : str := lit ")".

(** The closure [next_token] increments [idx] and returns
    [tokens[idx - 1]]; the new [idx] is returned with the token. *)
Definition next_token (tokens : list str) (idx : nat) : M (str * nat) :=
  let idx := idx + 1 in
  match nth_error tokens (idx - 1) with
  | Some t => ret (t, idx)
  | None => raise IndexError
  end.

(** One turn of [while idx < len(tokens)]; the result is the new [idx]. *)
Definition loop_body (tokens : list str) (idx : nat) : M nat :=
  r <- next_token tokens idx ;;
  let (t, idx) := r in
  if Py.str_eqb t lparen then
    r <- next_token tokens idx ;;
    let (nt, idx) := r in
    assert (negb (Py.str_eqb nt rparen)) ;;;
    path_append nt ;;;
    add_path ;;;
    ret idx
  else if Py.str_eqb t rparen then
    path_pop ;;;
    ret idx
  else
    n <- path_len ;;
    assert (0 <? n) ;;;
    if valid_keyword t then
      path_append t ;;;
      add_path ;;;
      path_pop ;;;
      ret idx
    else ret idx.

Lemma loop_body_advances tokens idx g idx' g' :
  loop_body tokens idx g = (Ok idx', g') -> idx < idx'.
Proof.
  unfold loop_body, next_token, bind, ret, raise, assert, path_len.
  replace (idx + 1 - 1) with idx by lia.
  destruct (nth_error tokens idx) as [t|]; [|discriminate].
  destruct (Py.str_eqb t lparen).
  - replace (idx + 1 + 1 - 1) with (idx + 1) by lia.
    destruct (nth_error tokens (idx + 1)) as [nt|]; [|discriminate].
    destruct (negb (Py.str_eqb nt rparen)); [|discriminate].
    simpl. intros H; inversion H; lia.
  - destruct (Py.str_eqb t rparen).
    + unfold path_pop. destruct (path g); [discriminate|].
      intros H; inversion H; lia.
    + destruct (0 <? length (path g)); [|discriminate].
      destruct (valid_keyword t).
      * unfold path_append, add_path, path_pop; simpl.
        destruct (path g ++ [t]); [discriminate|].
        intros H; inversion H; lia.
      * intros H; inversion H; lia.
Qed.

(** The loop [while idx < len(tokens)] from a given [idx]. *)
Equations? walk (tokens : list str) (idx : nat) (g : Globals)
  : result unit * Globals by wf (length tokens - idx) lt :=
  walk tokens idx g with lt_dec idx (length tokens) := {
    | right _ := (Ok tt, g);
    | left _ with inspect (loop_body tokens idx g) := {
        | exist _ (Raise e, g') _ := (Raise e, g');
        | exist _ (Ok idx', g') e := walk tokens idx' g' } }.
Proof. apply loop_body_advances in e. lia. Qed.

Definition process (data : str) : M unit :=
  match lex data with
  | Raise e => raise e
  | Ok tokens =>
      walk tokens 0 ;;;
      n <- path_len ;;
      assert (n =? 0)
  end.

(** *** The loop over the command line *)

(** A file of the command line: its name and, unless it cannot be read, its
    text. *)
Definition file := (str * option str)%type.

(** [data = open(v).read()] followed by [process(data)]. *)
Definition try_body (f : file) : M unit :=
  match snd f with
  | None => raise OSError
  | Some data => process data
  end.

(** The [for] loop with its [try]: what is printed, and the globals at the
    end. *)
Fixpoint main_loop (files : list file) (g : Globals) : list str * Globals :=
  match files with
  | [] => ([], g)
  | f :: rest =>
      let (r, g) := try_body f g in
      let out :=
        match r with
        | Ok _ => []
        | Raise _ => [lit "Failed to process " ++ fst f]
        end in
      let (outs, g) := main_loop rest g in
      (out ++ outs, g)
  end.

(** The script: the lines written to standard output. *)
Definition main (files : list file) : list str :=
  let (out, g) := main_loop files init in
  out ++ print_counts g.

(** * What the statements are written with *)

(** ** The quote scan as a function of the rest of the text

    [squash quote inside s] is what the scan adds to [new_data] while it
    reads [s]: outside a quoted region ([inside = false]) every character is
    kept; inside one, nothing is kept until the closing [quote]; the text
    must not end inside a region.  Lemma [quote_loop_squash] shows that the
    loops of the source compute it. *)

Fixpoint squash (quote : ascii) (inside : bool) (s : str) : option str :=
  match s with
  | [] => if inside then None else Some []
  | c :: s' =>
      if Ascii.eqb c quote then
        option_map (cons quote) (squash quote (negb inside) s')
      else if inside then squash quote true s'
      else option_map (cons c) (squash quote false s')
  end.

Definition of_option (o : option str) : result str :=
  match o with
  | Some s => Ok s
  | None => Raise IndexError
  end.

(** ** The accumulator as a whole *)

(** The sum of all counts. *)
Definition total (d : Dict.t) : nat := list_sum (map snd d).

(** What every accumulator of a run satisfies: the keys are pairwise
    distinct and no count is zero. *)
Definition dict_ok (d : Dict.t) : Prop :=
  NoDup (map fst d) /\ Forall (fun kv => 1 <= snd kv) d.

(** ** The turns of a walk *)

(** [reaches tokens g0 idx g]: the walk over [tokens] started with the
    globals [g0] comes, after some turns that all returned normally, to the
    test of its loop with index [idx] and globals [g]. *)
Inductive reaches (tokens : list str) (g0 : Globals)
  : nat -> Globals -> Prop :=
| reaches_start : reaches tokens g0 0 g0
| reaches_turn idx g idx' g' :
    reaches tokens g0 idx g ->
    idx < length tokens ->
    loop_body tokens idx g = (Ok idx', g') ->
    reaches tokens g0 idx' g'.

(** [walk_stops tokens idx g e]: the walk, come to the test of its loop
    with index [idx] and globals [g], fails there with [e]: the turn that
    starts at [idx] raises [e], or the tokens are used up and the closing
    [assert len(path) == 0] fails. *)
Definition walk_stops (tokens : list str) (idx : nat) (g : Globals)
    (e : exn) : Prop :=
  (idx < length tokens /\ fst (loop_body tokens idx g) = Raise e) \/
  (length tokens <= idx /\ path g <> [] /\ e = AssertionError).

(** The nesting depth after the tokens have been walked from depth [d], or
    [None] when the walk raises on the way: only the parentheses, the place
    of a token after an open parenthesis and the depth matter. *)
Fixpoint depth_after (tokens : list str) (d : nat) : option nat :=
  match tokens with
  | [] => Some d
  | t :: rest =>
      if Py.str_eqb t lparen then
        match rest with
        | [] => None
        | nt :: rest' =>
            if Py.str_eqb nt rparen then None else depth_after rest' (S d)
        end
      else if Py.str_eqb t rparen then
        match d with
        | 0 => None
        | S d' => depth_after rest d'
        end
      else
        match d with
        | 0 => None
        | S _ => depth_after rest d
        end
  end.

(** The number of times the walk of [tokens] calls [add_path] when it does
    not raise: once for every group it opens and once for every keyword it
    meets elsewhere. *)
Fixpoint records (tokens : list str) : nat :=
  match tokens with
  | [] => 0
  | t :: rest =>
      if Py.str_eqb t lparen then
        match rest with
        | [] => 0
        | _ :: rest' => 1 + records rest'
        end
      else if Py.str_eqb t rparen then records rest
      else (if valid_keyword t then 1 else 0) + records rest
  end.

(** A token as the lexer produces them: a parenthesis, or a non-empty text
    without parentheses and white space. *)
Definition atom_ok (t : str) : bool :=
  negb (length t =? 0) && forallb (fun c => negb (Py.is_sep c)) t.

Definition token_ok (t : str) : bool :=
  Py.str_eqb t lparen || Py.str_eqb t rparen || atom_ok t.

(** A computation that takes [counts] from one accumulator to another one
    related to it by [R]. *)
Definition lifts (R : Dict.t -> Dict.t -> Prop) {A} (m : M A) : Prop :=
  forall g, R (counts g) (counts (snd (m g))).

(** The order of the report without its second component. *)
Definition path_before (x y : nat * str) : Prop :=
  Py.str_compare (snd x) (snd y) = Lt.

(** ** Counts that only grow *)

(** Every entry of [d] is in [d'] with a count at least as large. *)
Definition grows (d d' : Dict.t) : Prop :=
  forall k n, Dict.get k d = Some n ->
              exists n', Dict.get k d' = Some n' /\ n <= n'.

(** A computation under which [counts] only grows. *)
Definition mono {A} (m : M A) : Prop :=
  forall g, grows (counts g) (counts (snd (m g))).

(** The file is lost before the walk starts: it cannot be read, or the
    quote scan raises. *)
Definition fails_before_walk (f : file) : bool :=
  match snd f with
  | None => true
  | Some data =>
      match lex data with
      | Raise _ => true
      | Ok _ => false
      end
  end.

(** ** The report *)

(** The pairs [(count, path)] in the order in which they are printed, and
    the line printed for a pair. *)
Definition report (g : Globals) : list (nat * str) :=
  sort (fun x => (snd x, fst x)) tuple_lt
    (map (fun kv => (snd kv, fst kv)) (Dict.items (counts g))).

Definition line (x : nat * str) : str :=
  snd x ++ lit ": " ++ Py.fmt_d (fst x).

(** The order the code sorts by: the path first, the count second. *)
Definition path_then_count (x y : nat * str) : Prop :=
  Py.str_compare (snd x) (snd y) = Lt \/
  (snd x = snd y /\ fst x <= fst y).

(** The order with the count first and the path second. *)
Definition count_then_path (x y : nat * str) : Prop :=
  fst x < fst y \/
  (fst x = fst y /\ Py.str_compare (snd x) (snd y) <> Gt).

(** ** Sample files *)

(** A file with the three markers, and one with the two weaker ones. *)
Definition three_markers : str :=
  marker dquote ++ marker squote ++ marker dollar ++ lit "(pcb)".
Definition two_markers : str :=
  marker squote ++ marker dquote ++ lit "(pcb)".

(** The file [(pcb ?foo)] where [?] is a double quote. *)
Definition open_quote_file : str := lit "(pcb " ++ dquote :: lit "foo)".

(** The file [(pcb ?a b(c?)] where [?] is a double quote, and the atom
    [?a b(c?]. *)
Definition quoted_atom : str := dquote :: lit "a b(c" ++ [dquote].
Definition quoted_file : str := lit "(pcb " ++ quoted_atom ++ lit ")".

(** The file [(string_quote ')(pcb \')]. *)
Definition escaped_squote_file : str :=
  marker squote ++ lit "(pcb " ++ [backslash; squote] ++ lit ")".

(** The file of the first scenario. *)
Definition sample_file : str := lit "(pcb (structure (layer top)))".

(** The file [(()], whose second token is an open parenthesis followed by
    a closing one. *)
Definition paren_name_file : str := lit "(()".

(** The file with two empty pairs, and its tokens. *)
Definition empty_pairs_file : str := lit "(pcb ()())".
Definition empty_pairs_tokens : list str :=
  [lparen; lit "pcb"; lparen; rparen; lparen; rparen; rparen].

(** The file [(pcb], one parenthesis short, and the file [(pcb)]. *)
Definition unbalanced_file : str := lit "(pcb".
Definition balanced_file : str := lit "(pcb)".

(** The file [(pcb (r1))], whose inner group is named by a word that is
    not a keyword, and its tokens. *)
Definition unknown_name_file : str := lit "(pcb (r1))".
Definition unknown_name_tokens : list str :=
  [lparen; lit "pcb"; lparen; lit "r1"; rparen; rparen].

(** The file [(pcb (net) (net) (wire))]. *)
Definition report_file : str := lit "(pcb (net) (net) (wire))".

(** * Properties *)

Unset Implicit Arguments.

(** ** Strings and lists *)

Lemma str_eqb_eq a b : Py.str_eqb a b = true <-> a = b.
Proof.
  revert b; induction a as [|x a IH]; intros [|y b]; simpl;
    try (split; [discriminate | congruence]); [tauto|].
  rewrite andb_true_iff, Ascii.eqb_eq, IH. split.
  - intros [-> ->]; reflexivity.
  - intros H; inversion H; auto.
Qed.

Lemma str_eqb_refl a : Py.str_eqb a a = true.
Proof. apply str_eqb_eq; reflexivity. Qed.

Lemma str_eqb_neq a b : a <> b -> Py.str_eqb a b = false.
Proof.
  intros H. destruct (Py.str_eqb a b) eqn:E; [|reflexivity].
  apply str_eqb_eq in E. contradiction.
Qed.

Lemma skipn_at_some (data : str) i c :
  nth_error data i = Some c -> skipn i data = c :: skipn (S i) data.
Proof.
  revert i; induction data as [|x data IH]; intros [|i]; simpl;
    try discriminate.
  - intros H; inversion H; reflexivity.
  - intros H. apply IH in H. exact H.
Qed.

Lemma skipn_at_none (data : str) i :
  nth_error data i = None -> skipn i data = [].
Proof.
  intros H. apply nth_error_None in H. apply skipn_all2. exact H.
Qed.

(** ** The quote scan, read off the rest of the text *)

Lemma find_quote_squash data quote i :
  match find_quote data quote i with
  | Ok j =>
      squash quote true (skipn i data)
      = option_map (cons quote) (squash quote false (skipn (S j) data))
  | Raise e => e = IndexError /\ squash quote true (skipn i data) = None
  end.
Proof.
  funelim (find_quote data quote i).
  - rewrite (skipn_at_none _ _ e). simpl. auto.
  - rewrite (skipn_at_some _ _ _ e). cbn [squash negb]. rewrite Heq.
    reflexivity.
  - rewrite (skipn_at_some _ _ _ e). cbn [squash negb]. rewrite Heq.
    exact H.
Qed.

Lemma quote_loop_squash data quote i new_data :
  quote_loop data quote i new_data
  = of_option (option_map (app new_data)
                 (squash quote false (skipn i data))).
Proof.
  funelim (quote_loop data quote i new_data);
    match goal with
    | e : nth_error _ _ = None |- _ => rewrite (skipn_at_none _ _ e)
    | e : nth_error _ _ = Some _ |- _ => rewrite (skipn_at_some _ _ _ e)
    end; cbn [squash option_map negb of_option];
    rewrite ?Heq; cbn [squash option_map negb of_option].
  - rewrite app_nil_r. reflexivity.
  - rewrite H.
    destruct (squash quote false (skipn (S i) data)); simpl;
      [|reflexivity].
    rewrite <- app_assoc. reflexivity.
  - pose proof (find_quote_squash data quote (S i)) as Hf.
    rewrite ej in Hf. rewrite Hf, H.
    apply Ascii.eqb_eq in Heq; subst c.
    destruct (squash quote false (skipn (S j) data)); simpl;
      [|reflexivity].
    rewrite <- !app_assoc. reflexivity.
  - pose proof (find_quote_squash data quote (S i)) as Hf.
    rewrite e0 in Hf. destruct Hf as [-> ->]. reflexivity.
Qed.

Lemma squash_app quote inside pre pre' s :
  squash quote inside pre = Some pre' ->
  squash quote inside (pre ++ s)
  = option_map (app pre') (squash quote false s).
Proof.
  revert inside pre'; induction pre as [|c pre IH]; intros inside pre'; simpl.
  - destruct inside; [discriminate|]. intros H; inversion H; subst.
    destruct (squash quote false s); reflexivity.
  - destruct (Ascii.eqb c quote).
    + destruct (squash quote (negb inside) pre) as [r|] eqn:E;
        [|discriminate].
      simpl. intros H; inversion H; subst. rewrite (IH _ _ E).
      destruct (squash quote false s); reflexivity.
    + destruct inside.
      * intros H. apply IH. exact H.
      * destruct (squash quote false pre) as [r|] eqn:E; [|discriminate].
        simpl. intros H; inversion H; subst. rewrite (IH _ _ E).
        destruct (squash quote false s); reflexivity.
Qed.

Lemma squash_inside_skip quote mid post :
  ~ In quote mid ->
  squash quote true (mid ++ quote :: post)
  = option_map (cons quote) (squash quote false post).
Proof.
  induction mid as [|c mid IH]; simpl; intros Hnot.
  - rewrite Ascii.eqb_refl. reflexivity.
  - destruct (Ascii.eqb c quote) eqn:E.
    + apply Ascii.eqb_eq in E. subst. tauto.
    + apply IH. tauto.
Qed.

Lemma squash_none_iff quote inside s :
  squash quote inside s = None
  <-> Nat.even (count_occ ascii_dec s quote) = inside.
Proof.
  revert inside; induction s as [|c s IH]; intros inside; simpl.
  - destruct inside; split; congruence.
  - destruct (Ascii.eqb c quote) eqn:E.
    + apply Ascii.eqb_eq in E. subst c.
      destruct (ascii_dec quote quote); [|congruence].
      rewrite Nat.even_succ, <- Nat.negb_even.
      specialize (IH (negb inside)).
      destruct (squash quote (negb inside) s); simpl;
        destruct (Nat.even (count_occ ascii_dec s quote)), inside;
        simpl in *; intuition congruence.
    + apply Ascii.eqb_neq in E.
      destruct (ascii_dec c quote); [congruence|].
      destruct inside; [apply IH|].
      specialize (IH false).
      destruct (squash quote false s); simpl; intuition congruence.
Qed.

(** The scan succeeds exactly on the texts with an even number of quote
    characters. *)
Lemma quote_loop_ok_iff text quote :
  (exists new_data, quote_loop text quote 0 [] = Ok new_data)
  <-> Nat.even (count_occ ascii_dec text quote) = true.
Proof.
  rewrite quote_loop_squash. simpl.
  pose proof (squash_none_iff quote false text) as H.
  destruct (squash quote false text) as [r|]; simpl.
  - split; [|eauto]. intros _.
    destruct (Nat.even (count_occ ascii_dec text quote)); [reflexivity|].
    destruct H as [_ H]. discriminate (H eq_refl).
  - split.
    + intros [? ?]; discriminate.
    + intros Hev. destruct H as [H _]. rewrite (H eq_refl) in Hev.
      discriminate.
Qed.

Lemma quote_loop_unterminated text quote pre rest :
  text = pre ++ quote :: rest ->
  Nat.even (count_occ ascii_dec pre quote) = true ->
  ~ In quote rest ->
  quote_loop text quote 0 [] = Raise IndexError.
Proof.
  intros -> Hpre Hrest. rewrite quote_loop_squash. simpl.
  replace (squash quote false (pre ++ quote :: rest)) with (@None str);
    [reflexivity|].
  symmetry. apply squash_none_iff.
  rewrite count_occ_app. simpl.
  destruct (ascii_dec quote quote); [|congruence].
  apply (count_occ_not_In ascii_dec) in Hrest. rewrite Hrest.
  rewrite Nat.add_1_r, Nat.even_succ, <- Nat.negb_even, Hpre. reflexivity.
Qed.

Lemma process_lex_raise data e g :
  lex data = Raise e -> process data g = (Raise e, g).
Proof. unfold process. intros ->. reflexivity. Qed.

(** ** The choice of the quote character *)

(** C10. When a file holds several [string_quote] markers, the dollar marker
    wins over the others, and the single-quote marker wins over the
    double-quote marker: with [(string_quote $)] in the file the active quote
    is the dollar whatever else is there, and with [(string_quote ')] but no
    [(string_quote $)] it is the single quote. *)
Theorem quote_precedence (data : str) :
  (Py.contains (marker dollar) data = true -> detect_quote data = dollar) /\
  (Py.contains (marker squote) data = true ->
   Py.contains (marker dollar) data = false ->
   detect_quote data = squote).
Proof.
  unfold detect_quote. split.
  - intros ->. reflexivity.
  - intros -> ->. reflexivity.
Qed.

Lemma quote_precedence_witness :
  detect_quote three_markers = dollar /\ detect_quote two_markers = squote.
Proof.
  split.
  - apply (proj1 (quote_precedence three_markers)). reflexivity.
  - apply (proj2 (quote_precedence two_markers)); reflexivity.
Defined.

(** ** Unterminated quotes *)

(** C9. Take the text the quote scan reads (the file's text once the markers
    and the escaped double quotes are gone and the letters are lowered) and
    an occurrence of the active quote character in it that opens a region
    (an even number of quote characters stands before it) and that no later
    occurrence closes.  Then the scan raises [IndexError]: no token sequence
    is produced, and [process] raises for that file. *)
Theorem unterminated_quote_raises (data pre rest : str) :
  prepare data = pre ++ detect_quote data :: rest ->
  Nat.even (count_occ ascii_dec pre (detect_quote data)) = true ->
  count_occ ascii_dec rest (detect_quote data) = 0 ->
  quote_loop (prepare data) (detect_quote data) 0 [] = Raise IndexError /\
  lex data = Raise IndexError /\
  forall g, process data g = (Raise IndexError, g).
Proof.
  intros Htext Hpre Hrest.
  assert (Hscan : quote_loop (prepare data) (detect_quote data) 0 []
                  = Raise IndexError).
  { eapply quote_loop_unterminated; [exact Htext | exact Hpre |].
    apply (count_occ_not_In ascii_dec). exact Hrest. }
  assert (Hlex : lex data = Raise IndexError).
  { unfold lex. rewrite Hscan. reflexivity. }
  repeat split; try assumption.
  intros g. apply process_lex_raise. exact Hlex.
Qed.

Lemma unterminated_quote_raises_witness :
  lex open_quote_file = Raise IndexError /\
  process open_quote_file init = (Raise IndexError, init).
Proof.
  destruct (@unterminated_quote_raises open_quote_file
              (lit "(pcb ") (lit "foo)")) as (_ & Hlex & Hproc).
  - vm_compute. reflexivity.
  - vm_compute. reflexivity.
  - vm_compute. reflexivity.
  - split; [exact Hlex | apply Hproc].
Defined.

(** ** Quoted regions *)

(** C1 does not hold as it is written: the scan keeps the two quote
    characters of [?a b(c?] and nothing of what stands between them, and the
    atom is not among the tokens. *)
Lemma quoted_region_not_verbatim :
  detect_quote quoted_file = dquote /\
  quote_loop (prepare quoted_file) dquote 0 []
  = Ok (lit "(pcb " ++ [dquote; dquote] ++ lit ")") /\
  lex quoted_file = Ok [lparen; lit "pcb"; [dquote; dquote]; rparen] /\
  ~ (exists tokens, lex quoted_file = Ok tokens /\ In quoted_atom tokens).
Proof.
  assert (Hlex : lex quoted_file
                 = Ok [lparen; lit "pcb"; [dquote; dquote]; rparen])
    by (vm_compute; reflexivity).
  repeat split; try (vm_compute; reflexivity); try exact Hlex.
  intros (tokens & Htok & Hin). rewrite Hlex in Htok.
  inversion Htok; subst tokens.
  simpl in Hin. repeat destruct Hin as [Hin | Hin]; try discriminate Hin.
  exact Hin.
Qed.

(** C1, amended. When the active quote character delimits a closed region
    of the scanned text (an opening quote, a stretch [mid] without quote
    characters, the closing quote), the scan copies the opening and the
    closing quote character and drops [mid]: its output is the output for
    the text before the region, two quote characters, and the output for the
    text after the region.  White space and parentheses between the quotes
    therefore never reach the split; the region is not split, but it is
    emptied. *)
Theorem quoted_region_squashed (data pre pre' mid post : str) :
  prepare data
  = pre ++ detect_quote data :: mid ++ detect_quote data :: post ->
  quote_loop pre (detect_quote data) 0 [] = Ok pre' ->
  count_occ ascii_dec mid (detect_quote data) = 0 ->
  quote_loop (prepare data) (detect_quote data) 0 []
  = match quote_loop post (detect_quote data) 0 [] with
    | Ok post' => Ok (pre' ++ detect_quote data :: detect_quote data :: post')
    | Raise e => Raise e
    end /\
  lex data
  = match quote_loop post (detect_quote data) 0 [] with
    | Ok post' =>
        Ok (split_tokens
              (pre' ++ detect_quote data :: detect_quote data :: post'))
    | Raise e => Raise e
    end.
Proof.
  intros Htext Hpre Hmid.
  apply (count_occ_not_In ascii_dec) in Hmid.
  set (q := detect_quote data) in *.
  assert (Hscan : quote_loop (prepare data) q 0 []
                  = match quote_loop post q 0 [] with
                    | Ok post' => Ok (pre' ++ q :: q :: post')
                    | Raise e => Raise e
                    end).
  { rewrite Htext. rewrite quote_loop_squash in Hpre.
    rewrite !quote_loop_squash. cbn [skipn] in *.
    destruct (squash q false pre) as [r|] eqn:Epre; [|discriminate].
    inversion Hpre; subst r.
    erewrite squash_app by exact Epre. cbn [squash option_map negb].
    rewrite Ascii.eqb_refl. rewrite squash_inside_skip by exact Hmid.
    destruct (squash q false post) as [r|]; reflexivity. }
  split; [exact Hscan|].
  unfold lex. fold q. rewrite Hscan.
  destruct (quote_loop post q 0 []); reflexivity.
Qed.

Lemma quoted_region_squashed_witness :
  lex quoted_file
  = Ok (split_tokens (lit "(pcb " ++ dquote :: dquote :: lit ")")).
Proof.
  apply (proj2 (@quoted_region_squashed quoted_file
                  (lit "(pcb ") (lit "(pcb ") (lit "a b(c") (lit ")")
                  eq_refl eq_refl eq_refl)).
Defined.

(** ** Escaped quotes *)

(** C4 at this file: the active quote is the single quote, but the
    backslash and the single quote after it are still in the scanned text
    (only a backslash followed by a double quote is ever removed), so the
    single quote opens a region that is never closed and the file fails.
    Without the two characters the file is read as the group [pcb]. *)
Lemma escaped_active_quote_kept :
  detect_quote escaped_squote_file = squote /\
  prepare escaped_squote_file
  = lit "(pcb " ++ [backslash; squote] ++ lit ")" /\
  process escaped_squote_file init = (Raise IndexError, init) /\
  process (marker squote ++ lit "(pcb )") init
  = (Ok tt, {| path := []; counts := [(lit "pcb", 1)] |}).
Proof. repeat split; vm_compute; reflexivity. Qed.

(** ** A complete run on one file *)

(** C6. The file [(pcb (structure (layer top)))] has no marker, so the
    quote is the default one; its four names are keywords; processing it
    from the empty state returns normally and leaves exactly the four
    entries [pcb], [pcb.structure], [pcb.structure.layer] and
    [pcb.structure.layer.top], each with count 1. *)
Theorem sample_file_counts :
  detect_quote sample_file = dquote /\
  forallb valid_keyword
    [lit "pcb"; lit "structure"; lit "layer"; lit "top"] = true /\
  process sample_file init
  = (Ok tt,
     {| path := [];
        counts := [ (lit "pcb", 1);
                    (lit "pcb.structure", 1);
                    (lit "pcb.structure.layer", 1);
                    (lit "pcb.structure.layer.top", 1) ] |}) /\
  main [(lit "sample.dsn", Some sample_file)]
  = [ lit "pcb: 1"; lit "pcb.structure: 1"; lit "pcb.structure.layer: 1";
      lit "pcb.structure.layer.top: 1" ].
Proof. repeat split; vm_compute; reflexivity. Qed.

(** ** One turn of the walk *)

Lemma next_token_at tokens idx t g :
  nth_error tokens idx = Some t ->
  next_token tokens idx g = (Ok (t, idx + 1), g).
Proof.
  unfold next_token. replace (idx + 1 - 1) with idx by lia.
  intros ->. reflexivity.
Qed.

Lemma next_token_end tokens idx g :
  nth_error tokens idx = None ->
  next_token tokens idx g = (Raise IndexError, g).
Proof.
  unfold next_token. replace (idx + 1 - 1) with idx by lia.
  intros ->. reflexivity.
Qed.

(** The name after an open parenthesis is pushed and counted whatever it
    is, keyword or not, as long as it is not the closing parenthesis. *)
Lemma group_name_pushed tokens idx nt g :
  nth_error tokens idx = Some lparen ->
  nth_error tokens (idx + 1) = Some nt ->
  nt <> rparen ->
  loop_body tokens idx g
  = (Ok (idx + 1 + 1), snd (add_path (snd (path_append nt g)))).
Proof.
  intros Ht Hnt Hne. unfold loop_body, bind.
  rewrite (next_token_at _ _ _ g Ht). rewrite str_eqb_refl.
  rewrite (next_token_at _ _ _ g Hnt). rewrite (str_eqb_neq _ _ Hne).
  reflexivity.
Qed.

(** C7 does not hold as it is written: in [(pcb (r1))] the atom [r1] is no
    keyword and is met while [path] holds [pcb], yet, being the name after
    an open parenthesis, it is pushed onto [path] and [pcb.r1] is
    counted. *)
Lemma unknown_name_counted :
  valid_keyword (lit "r1") = false /\
  lex unknown_name_file = Ok unknown_name_tokens /\
  nth_error unknown_name_tokens 3 = Some (lit "r1") /\
  loop_body unknown_name_tokens 2
    {| path := [lit "pcb"]; counts := [(lit "pcb", 1)] |}
  = (Ok 4, {| path := [lit "pcb"; lit "r1"];
              counts := [(lit "pcb", 1); (lit "pcb.r1", 1)] |}) /\
  process unknown_name_file init
  = (Ok tt, {| path := [];
               counts := [(lit "pcb", 1); (lit "pcb.r1", 1)] |}) /\
  ~ (snd (loop_body unknown_name_tokens 2
            {| path := [lit "pcb"]; counts := [(lit "pcb", 1)] |})
     = {| path := [lit "pcb"]; counts := [(lit "pcb", 1)] |}).
Proof.
  repeat split; try (vm_compute; reflexivity).
  vm_compute. discriminate.
Qed.

(** C7, amended. Take an atom (a token that is neither parenthesis) that is
    not a keyword.  When the walk reads it as the token of a turn of its
    own, that is, not as the name directly after an open parenthesis, and
    [path] is not empty, the turn returns normally, having only moved to the
    next token, and leaves [path] and [counts] as they were.  When the walk
    reads it as the name directly after an open parenthesis, it is pushed
    onto [path] and the extended path is counted, as for any name. *)
Theorem unknown_atom_ignored (tokens : list str) (idx : nat) (t : str)
    (g : Globals) :
  valid_keyword t = false ->
  t <> lparen ->
  t <> rparen ->
  (nth_error tokens idx = Some t ->
   path g <> [] ->
   loop_body tokens idx g = (Ok (idx + 1), g)) /\
  (nth_error tokens idx = Some lparen ->
   nth_error tokens (idx + 1) = Some t ->
   loop_body tokens idx g
   = (Ok (idx + 1 + 1),
      {| path := path g ++ [t];
         counts :=
           Dict.incr (Py.join dot (path g ++ [t]))
             (Dict.setdefault (Py.join dot (path g ++ [t])) 0
                (counts g)) |})).
Proof.
  intros Hkw Hl Hr. split.
  - intros Ht Hpath. unfold loop_body, bind.
    rewrite (next_token_at _ _ _ g Ht).
    rewrite (str_eqb_neq _ _ Hl), (str_eqb_neq _ _ Hr).
    unfold path_len, assert. destruct (path g) as [|x p]; [congruence|].
    simpl. rewrite Hkw. reflexivity.
  - intros Hopen Hname.
    rewrite (group_name_pushed tokens idx t g Hopen Hname Hr).
    reflexivity.
Qed.

Lemma unknown_atom_ignored_witness :
  loop_body [lparen; lit "pcb"; lit "r1"; rparen] 2
    {| path := [lit "pcb"]; counts := [(lit "pcb", 1)] |}
  = (Ok 3, {| path := [lit "pcb"]; counts := [(lit "pcb", 1)] |}) /\
  loop_body unknown_name_tokens 2
    {| path := [lit "pcb"]; counts := [(lit "pcb", 1)] |}
  = (Ok 4, {| path := [lit "pcb"; lit "r1"];
              counts := [(lit "pcb", 1); (lit "pcb.r1", 1)] |}).
Proof.
  split.
  - apply (proj1 (unknown_atom_ignored
                    [lparen; lit "pcb"; lit "r1"; rparen] 2 (lit "r1")
                    {| path := [lit "pcb"]; counts := [(lit "pcb", 1)] |}
                    ltac:(vm_compute; reflexivity)
                    ltac:(discriminate) ltac:(discriminate))).
    + reflexivity.
    + discriminate.
  - apply (proj2 (unknown_atom_ignored unknown_name_tokens 2 (lit "r1")
                    {| path := [lit "pcb"]; counts := [(lit "pcb", 1)] |}
                    ltac:(vm_compute; reflexivity)
                    ltac:(discriminate) ltac:(discriminate)));
      reflexivity.
Defined.

(** An open parenthesis read by the walk and followed by a closing one, or
    by nothing, makes the turn raise without touching the globals. *)
Lemma empty_group_turn_raises tokens idx g :
  nth_error tokens idx = Some lparen ->
  nth_error tokens (idx + 1) = Some rparen \/
  nth_error tokens (idx + 1) = None ->
  exists e, loop_body tokens idx g = (Raise e, g).
Proof.
  intros Ht Hnext. unfold loop_body, bind.
  rewrite (next_token_at _ _ _ g Ht). rewrite str_eqb_refl.
  destruct Hnext as [Hn | Hn].
  - rewrite (next_token_at _ _ _ g Hn). rewrite str_eqb_refl.
    exists AssertionError. reflexivity.
  - rewrite (next_token_end _ _ g Hn). exists IndexError. reflexivity.
Qed.

(** ** The loop of the walk *)

Lemma walk_turn tokens idx g :
  idx < length tokens ->
  walk tokens idx g
  = match loop_body tokens idx g with
    | (Ok idx', g') => walk tokens idx' g'
    | (Raise e, g') => (Raise e, g')
    end.
Proof.
  intros Hlt. funelim (walk tokens idx g); try lia;
    match goal with
    | E : loop_body _ _ _ = _ |- _ => rewrite E; reflexivity
    end.
Qed.

Lemma walk_end tokens idx g :
  length tokens <= idx -> walk tokens idx g = (Ok tt, g).
Proof.
  intros Hle. funelim (walk tokens idx g); try lia. reflexivity.
Qed.

Lemma reaches_walk tokens g0 idx g :
  reaches tokens g0 idx g -> walk tokens 0 g0 = walk tokens idx g.
Proof.
  induction 1 as [|idx g idx' g' _ IH Hlt Hturn]; [reflexivity|].
  rewrite IH. rewrite walk_turn by exact Hlt. rewrite Hturn. reflexivity.
Qed.

(** A turn that returns normally moves one token on, or two when its token
    is an open parenthesis. *)
Lemma loop_body_next tokens idx g idx' g' :
  loop_body tokens idx g = (Ok idx', g') ->
  idx' = idx + 1 \/
  (idx' = idx + 1 + 1 /\ nth_error tokens idx = Some lparen).
Proof.
  unfold loop_body, bind.
  destruct (nth_error tokens idx) as [t|] eqn:Ht.
  2: { rewrite (next_token_end _ _ g Ht). discriminate. }
  rewrite (next_token_at _ _ _ g Ht).
  destruct (Py.str_eqb t lparen) eqn:El.
  - apply str_eqb_eq in El. subst t.
    destruct (nth_error tokens (idx + 1)) as [nt|] eqn:Hnt.
    2: { rewrite (next_token_end _ _ g Hnt). discriminate. }
    rewrite (next_token_at _ _ _ g Hnt).
    destruct (Py.str_eqb nt rparen); simpl; [discriminate|].
    intros H; inversion H; auto.
  - destruct (Py.str_eqb t rparen).
    + unfold path_pop, ret. destruct (path g); [discriminate|].
      intros H; inversion H; auto.
    + unfold path_len, assert. destruct (0 <? length (path g));
        [|discriminate].
      unfold ret at 1. destruct (valid_keyword t).
      * unfold path_append, add_path, path_pop, ret; simpl.
        destruct (path g ++ [t]); [discriminate|].
        intros H; inversion H; auto.
      * unfold ret. intros H; inversion H; auto.
Qed.

Lemma walk_reaches_empty_group tokens i :
  nth_error tokens i = Some lparen ->
  nth_error tokens (i + 1) = Some rparen \/
  nth_error tokens (i + 1) = None ->
  (forall j, i = j + 1 -> nth_error tokens j <> Some lparen) ->
  forall n idx g,
    idx <= i -> i - idx <= n ->
    exists e g', walk tokens idx g = (Raise e, g').
Proof.
  intros Hi Hnext Hprev.
  assert (Hlen : i < length tokens) by (apply nth_error_Some; congruence).
  induction n as [|n IH]; intros idx g Hle Hn.
  - assert (idx = i) by lia. subst idx.
    rewrite walk_turn by exact Hlen.
    destruct (@empty_group_turn_raises tokens i g Hi Hnext) as [e He].
    rewrite He. eauto.
  - destruct (Nat.eq_dec idx i) as [->|Hne].
    + rewrite walk_turn by exact Hlen.
      destruct (@empty_group_turn_raises tokens i g Hi Hnext) as [e He].
      rewrite He. eauto.
    + rewrite walk_turn by lia.
      destruct (loop_body tokens idx g) as [[idx'|e] g'] eqn:Hturn;
        [|eauto].
      destruct (@loop_body_next tokens idx g idx' g' Hturn)
        as [-> | [-> Hl]].
      * apply IH; lia.
      * destruct (Nat.eq_dec (idx + 1) i) as [Heq|Hne'].
        -- exfalso. apply (Hprev idx); [lia | exact Hl].
        -- apply IH; lia.
Qed.

Lemma process_walk_raise data tokens g e g' :
  lex data = Ok tokens ->
  walk tokens 0 g = (Raise e, g') ->
  process data g = (Raise e, g').
Proof.
  intros Hlex Hwalk. unfold process, bind. rewrite Hlex, Hwalk.
  reflexivity.
Qed.

(** ** Empty groups *)

(** C8 does not hold for every token stream: in [(()] the second open
    parenthesis is directly followed by the closing one, but the walk reads
    it as the name of the first group, and the file is processed without any
    exception. *)
Lemma paren_name_accepted :
  lex paren_name_file = Ok [lparen; lparen; rparen] /\
  nth_error [lparen; lparen; rparen] 1 = Some lparen /\
  nth_error [lparen; lparen; rparen] 2 = Some rparen /\
  process paren_name_file init
  = (Ok tt, {| path := []; counts := [(lit "(", 1)] |}) /\
  ~ (exists e g', process paren_name_file init = (Raise e, g')).
Proof.
  assert (H : process paren_name_file init
              = (Ok tt, {| path := []; counts := [(lit "(", 1)] |}))
    by (vm_compute; reflexivity).
  repeat split; try (vm_compute; reflexivity); try exact H.
  intros (e & g' & He). rewrite H in He. discriminate.
Qed.

(** C8, amended. In every token stream, an open parenthesis that does not
    itself come directly after another open parenthesis, and that is
    directly followed by a closing parenthesis or by nothing, makes the walk
    raise, and with it [process] for that file. *)
Theorem empty_group_raises (data : str) (tokens : list str) (i : nat)
    (g : Globals) :
  lex data = Ok tokens ->
  nth_error tokens i = Some lparen ->
  nth_error tokens (i + 1) = Some rparen \/
  nth_error tokens (i + 1) = None ->
  (forall j, i = j + 1 -> nth_error tokens j <> Some lparen) ->
  exists e g',
    walk tokens 0 g = (Raise e, g') /\ process data g = (Raise e, g').
Proof.
  intros Hlex Hi Hnext Hprev.
  destruct (@walk_reaches_empty_group tokens i Hi Hnext Hprev i 0 g)
    as (e & g' & Hwalk); [lia | lia |].
  exists e, g'. split; [exact Hwalk|].
  apply (@process_walk_raise data tokens g e g' Hlex Hwalk).
Qed.

Lemma empty_group_raises_witness :
  exists e g',
    walk empty_pairs_tokens 0 init = (Raise e, g') /\
    process empty_pairs_file init = (Raise e, g').
Proof.
  apply (@empty_group_raises empty_pairs_file empty_pairs_tokens 2 init).
  - vm_compute. reflexivity.
  - reflexivity.
  - left. reflexivity.
  - intros j Hj. assert (j = 1) by lia. subst j. discriminate.
Defined.

(** [(pcb ()())] fails at its first empty pair: the turn at token 0 opens
    [pcb], the turn at token 2 trips over [assert nt != ')']. *)
Lemma empty_pairs_first_pair :
  lex empty_pairs_file = Ok empty_pairs_tokens /\
  loop_body empty_pairs_tokens 0 init
  = (Ok 2, {| path := [lit "pcb"]; counts := [(lit "pcb", 1)] |}) /\
  loop_body empty_pairs_tokens 2
    {| path := [lit "pcb"]; counts := [(lit "pcb", 1)] |}
  = (Raise AssertionError,
     {| path := [lit "pcb"]; counts := [(lit "pcb", 1)] |}) /\
  process empty_pairs_file init
  = (Raise AssertionError,
     {| path := [lit "pcb"]; counts := [(lit "pcb", 1)] |}).
Proof. repeat split; vm_compute; reflexivity. Qed.

(** ** Counts only grow *)

Lemma grows_refl d : grows d d.
Proof. intros k n H. exists n. auto. Qed.

Lemma grows_trans d1 d2 d3 : grows d1 d2 -> grows d2 d3 -> grows d1 d3.
Proof.
  intros H12 H23 k n H. destruct (H12 _ _ H) as (n2 & H2 & Hle2).
  destruct (H23 _ _ H2) as (n3 & H3 & Hle3). exists n3. split; [auto|lia].
Qed.

Lemma get_app_some k d d' n :
  Dict.get k d = Some n -> Dict.get k (d ++ d') = Some n.
Proof.
  induction d as [|[k1 v] d IH]; simpl; [discriminate|].
  destruct (Py.str_eqb k k1); auto.
Qed.

Lemma grows_setdefault k v d : grows d (Dict.setdefault k v d).
Proof.
  unfold Dict.setdefault. destruct (Dict.get k d); [apply grows_refl|].
  intros k' n H. exists n. split; [|lia]. apply get_app_some. exact H.
Qed.

Lemma grows_incr k d : grows d (Dict.incr k d).
Proof.
  induction d as [|[k1 v] d IH]; simpl; [apply grows_refl|].
  destruct (Py.str_eqb k k1); intros k' n; simpl.
  - destruct (Py.str_eqb k' k1).
    + intros H; inversion H; subst. exists (n + 1). split; [auto|lia].
    + intros H. exists n. auto.
  - destruct (Py.str_eqb k' k1).
    + intros H. exists n. auto.
    + apply IH.
Qed.

Lemma mono_ret {A} (a : A) : mono (ret a).
Proof. intros g. apply grows_refl. Qed.

Lemma mono_raise {A} e : mono (@raise A e).
Proof. intros g. apply grows_refl. Qed.

Lemma mono_bind {A B} (m : M A) (f : A -> M B) :
  mono m -> (forall a, mono (f a)) -> mono (bind m f).
Proof.
  intros Hm Hf g. unfold bind. specialize (Hm g).
  destruct (m g) as [[a|e] g1]; simpl in *; [|exact Hm].
  eapply grows_trans; [exact Hm | apply Hf].
Qed.

Lemma mono_assert b : mono (assert b).
Proof. destruct b; [apply mono_ret | apply mono_raise]. Qed.

Lemma mono_path_append x : mono (path_append x).
Proof. intros g. apply grows_refl. Qed.

Lemma mono_path_pop : mono path_pop.
Proof. intros g. unfold path_pop. destruct (path g); apply grows_refl. Qed.

Lemma mono_path_len : mono path_len.
Proof. intros g. apply grows_refl. Qed.

Lemma mono_add_path : mono add_path.
Proof.
  intros g. simpl.
  eapply grows_trans; [apply grows_setdefault | apply grows_incr].
Qed.

Lemma mono_next_token tokens idx : mono (next_token tokens idx).
Proof.
  unfold next_token. destruct (nth_error tokens (idx + 1 - 1));
    [apply mono_ret | apply mono_raise].
Qed.

Create HintDb mono.
#[local] Hint Resolve mono_ret mono_raise mono_assert mono_path_append
  mono_path_pop mono_path_len mono_add_path mono_next_token : mono.

Lemma mono_loop_body tokens idx : mono (loop_body tokens idx).
Proof.
  unfold loop_body. apply mono_bind; [auto with mono|].
  intros [t idx1]. destruct (Py.str_eqb t lparen).
  - apply mono_bind; [auto with mono|]. intros [nt idx2].
    repeat (apply mono_bind; [auto with mono | intros _]).
    auto with mono.
  - destruct (Py.str_eqb t rparen).
    + apply mono_bind; [auto with mono | intros _]. auto with mono.
    + apply mono_bind; [auto with mono | intros n].
      apply mono_bind; [auto with mono | intros _].
      destruct (valid_keyword t); [|auto with mono].
      repeat (apply mono_bind; [auto with mono | intros _]).
      auto with mono.
Qed.

Lemma mono_walk tokens idx : mono (walk tokens idx).
Proof.
  intros g. funelim (walk tokens idx g);
    try match goal with
        | E : loop_body ?t ?i ?g0 = _ |- _ =>
            pose proof (@mono_loop_body t i g0) as Hm;
            rewrite E in Hm; simpl in Hm
        end.
  - apply grows_refl.
  - eapply grows_trans; eassumption.
  - exact Hm.
Qed.

Lemma mono_process data : mono (process data).
Proof.
  unfold process. destruct (lex data) as [tokens|e]; [|apply mono_raise].
  apply mono_bind; [apply mono_walk | intros _].
  apply mono_bind; [apply mono_path_len | intros n]. apply mono_assert.
Qed.

Lemma mono_try_body f : mono (try_body f).
Proof.
  unfold try_body. destruct (snd f); [apply mono_process | apply mono_raise].
Qed.

(** ** A file that fails *)

(** A turn that raises has not touched the globals. *)
Lemma turn_raise_keeps tokens idx g e g' :
  loop_body tokens idx g = (Raise e, g') -> g' = g.
Proof.
  unfold loop_body, bind, next_token.
  destruct (nth_error tokens (idx + 1 - 1)) as [t|];
    [|intros H; inversion H; reflexivity].
  unfold ret at 1. destruct (Py.str_eqb t lparen).
  - destruct (nth_error tokens (idx + 1 + 1 - 1)) as [nt|];
      [|intros H; inversion H; reflexivity].
    unfold ret at 1. destruct (Py.str_eqb nt rparen); simpl.
    + intros H; inversion H; reflexivity.
    + discriminate.
  - destruct (Py.str_eqb t rparen).
    + unfold path_pop, ret. destruct (path g).
      * intros H; inversion H; reflexivity.
      * discriminate.
    + unfold path_len, assert. destruct (0 <? length (path g)).
      * unfold ret at 1. destruct (valid_keyword t); [|discriminate].
        unfold path_append, add_path, path_pop, ret; simpl.
        destruct (path g ++ [t]) eqn:E; [|discriminate].
        destruct (path g); discriminate.
      * intros H; inversion H; reflexivity.
Qed.

(** C2 does not hold as it is written: [(pcb] fails at the closing
    assertion, after [pcb] has been counted, and the count stays; it is
    printed in the report of a run whose only file failed. *)
Lemma failed_file_leaves_counts :
  try_body (lit "a.dsn", Some unbalanced_file) init
  = (Raise AssertionError,
     {| path := [lit "pcb"]; counts := [(lit "pcb", 1)] |}) /\
  counts (snd (try_body (lit "a.dsn", Some unbalanced_file) init))
  <> counts init /\
  main [(lit "a.dsn", Some unbalanced_file)]
  = [lit "Failed to process a.dsn"; lit "pcb: 1"].
Proof.
  repeat split; try (vm_compute; reflexivity).
  vm_compute. discriminate.
Qed.

(** Where a walk ends: at the first turn that raises, with the globals
    that turn found, or past the last token. *)
Lemma walk_outcome tokens g0 :
  forall n idx g,
    reaches tokens g0 idx g ->
    length tokens - idx <= n ->
    exists idx',
      reaches tokens g0 idx' (snd (walk tokens idx g)) /\
      match fst (walk tokens idx g) with
      | Ok _ => length tokens <= idx'
      | Raise e =>
          idx' < length tokens /\
          fst (loop_body tokens idx' (snd (walk tokens idx g))) = Raise e
      end.
Proof.
  induction n as [|n IH]; intros idx g Hreach Hn;
    destruct (Nat.lt_ge_cases idx (length tokens)) as [Hlt | Hge];
    try lia.
  - rewrite walk_end by exact Hge. exists idx. auto.
  - rewrite walk_turn by exact Hlt.
    destruct (loop_body tokens idx g) as [[idx1|e] g1] eqn:Hturn.
    + apply IH.
      * eapply reaches_turn; [exact Hreach | exact Hlt | exact Hturn].
      * apply loop_body_advances in Hturn. lia.
    + assert (g1 = g) by (eapply turn_raise_keeps; exact Hturn). subst g1.
      exists idx. simpl. rewrite Hturn. auto.
  - rewrite walk_end by exact Hge. exists idx. auto.
Qed.

(** C2, amended. For a file that fails, the globals after it are exactly
    the globals as processing had left them when it failed.  They are the
    globals before the file when the file cannot be read or the quote scan
    raises.  When the walk fails, at a turn that raises or at the closing
    assertion, they are the globals left by the turns completed before
    that: every count those turns recorded is there, none is taken back,
    and the failing turn adds nothing.  Every failure is of one of these
    two kinds.  Hence every entry that was there before the file is still
    there with a count at least as large; and a walk that fails at its
    first turn leaves the globals before the file. *)
Theorem failed_file_accumulator (f : file) (g : Globals) :
  (fails_before_walk f = true -> exists e, try_body f g = (Raise e, g)) /\
  (forall data tokens idx g1 e,
     snd f = Some data ->
     lex data = Ok tokens ->
     reaches tokens g idx g1 ->
     walk_stops tokens idx g1 e ->
     try_body f g = (Raise e, g1)) /\
  (forall e g',
     try_body f g = (Raise e, g') ->
     (fails_before_walk f = true /\ g' = g) \/
     (exists data tokens idx,
        snd f = Some data /\ lex data = Ok tokens /\
        reaches tokens g idx g' /\ walk_stops tokens idx g' e)) /\
  (forall e g', try_body f g = (Raise e, g') ->
                grows (counts g) (counts g')) /\
  (forall data tokens e,
     snd f = Some data ->
     lex data = Ok tokens ->
     walk_stops tokens 0 g e ->
     try_body f g = (Raise e, g)).
Proof.
  assert (Hat : forall data tokens idx g1 e,
             snd f = Some data ->
             lex data = Ok tokens ->
             reaches tokens g idx g1 ->
             walk_stops tokens idx g1 e ->
             try_body f g = (Raise e, g1)).
  { intros data tokens idx g1 e Hf Hlex Hreach Hstop.
    unfold try_body, process. rewrite Hf, Hlex. unfold bind.
    rewrite (reaches_walk _ _ _ _ Hreach).
    destruct Hstop as [[Hlt Hturn] | (Hge & Hpath & ->)].
    + rewrite walk_turn by exact Hlt.
      destruct (loop_body tokens idx g1) as [r g2] eqn:E. simpl in Hturn.
      subst r. apply turn_raise_keeps in E. subst g2. reflexivity.
    + rewrite walk_end by exact Hge. unfold path_len, assert.
      destruct (path g1); [congruence | reflexivity]. }
  split; [|split; [exact Hat|split; [|split]]].
  - unfold fails_before_walk, try_body, process.
    destruct (snd f) as [data|]; [|exists OSError; reflexivity].
    destruct (lex data) as [tokens|e]; [discriminate|].
    exists e. reflexivity.
  - intros e g' Hrun. unfold fails_before_walk.
    unfold try_body, process in Hrun.
    destruct (snd f) as [data|] eqn:Hf; [|inversion Hrun; auto].
    destruct (lex data) as [tokens|e0] eqn:Hlex; [|inversion Hrun; auto].
    right. exists data, tokens.
    destruct (walk_outcome tokens g (length tokens) 0 g
                (reaches_start tokens g) ltac:(lia))
      as (idx & Hreach & Hend).
    unfold bind, path_len, assert in Hrun.
    destruct (walk tokens 0 g) as [[[]|e1] g1]; simpl in Hreach, Hend.
    + destruct (path g1) as [|x p] eqn:Ep; simpl in Hrun;
        [discriminate|].
      inversion Hrun; subst. exists idx.
      split; [reflexivity|]. split; [exact Hlex|].
      split; [exact Hreach|].
      right. rewrite Ep. split; [exact Hend|]. split; [discriminate|].
      reflexivity.
    + inversion Hrun; subst. exists idx.
      split; [reflexivity|]. split; [exact Hlex|].
      split; [exact Hreach|]. left. exact Hend.
  - intros e g' Hrun. pose proof (mono_try_body f g) as Hm.
    rewrite Hrun in Hm. exact Hm.
  - intros data tokens e Hf Hlex Hstop.
    apply (Hat data tokens 0 g e Hf Hlex (reaches_start tokens g) Hstop).
Qed.

Lemma failed_file_accumulator_witness :
  (exists e, try_body (lit "a.dsn", Some open_quote_file) init
             = (Raise e, init)) /\
  try_body (lit "b.dsn", Some unbalanced_file)
    {| path := []; counts := [(lit "pcb", 2)] |}
  = (Raise AssertionError,
     {| path := [lit "pcb"]; counts := [(lit "pcb", 3)] |}) /\
  grows [(lit "pcb", 2)] [(lit "pcb", 3)] /\
  try_body (lit "c.dsn", Some (lit ")"))
    {| path := []; counts := [(lit "pcb", 2)] |}
  = (Raise IndexError, {| path := []; counts := [(lit "pcb", 2)] |}).
Proof.
  split; [|split; [|split]].
  - apply (proj1 (failed_file_accumulator
                    (lit "a.dsn", Some open_quote_file) init)).
    vm_compute. reflexivity.
  - apply (proj1 (proj2 (failed_file_accumulator
                           (lit "b.dsn", Some unbalanced_file)
                           {| path := []; counts := [(lit "pcb", 2)] |}))
             unbalanced_file [lparen; lit "pcb"] 2
             {| path := [lit "pcb"]; counts := [(lit "pcb", 3)] |}
             AssertionError).
    + reflexivity.
    + vm_compute. reflexivity.
    + apply (@reaches_turn [lparen; lit "pcb"]
               {| path := []; counts := [(lit "pcb", 2)] |} 0
               {| path := []; counts := [(lit "pcb", 2)] |}).
      * apply reaches_start.
      * vm_compute. lia.
      * vm_compute. reflexivity.
    + right. repeat split; [vm_compute; lia | discriminate].
  - apply (proj1 (proj2 (proj2 (proj2 (failed_file_accumulator
                    (lit "b.dsn", Some unbalanced_file)
                    {| path := []; counts := [(lit "pcb", 2)] |}))))
             AssertionError
             {| path := [lit "pcb"]; counts := [(lit "pcb", 3)] |}).
    vm_compute. reflexivity.
  - apply (proj2 (proj2 (proj2 (proj2 (failed_file_accumulator
                    (lit "c.dsn", Some (lit ")"))
                    {| path := []; counts := [(lit "pcb", 2)] |}))))
             (lit ")") [rparen] IndexError).
    + reflexivity.
    + vm_compute. reflexivity.
    + left. split; [vm_compute; lia | vm_compute; reflexivity].
Defined.

(** ** The path between files *)

(** A file that [process] accepts leaves [path] empty. *)
Lemma process_ok_path_empty data g g' :
  process data g = (Ok tt, g') -> path g' = [].
Proof.
  unfold process. destruct (lex data) as [tokens|e]; [|discriminate].
  unfold bind. destruct (walk tokens 0 g) as [[[]|e] g1]; [|discriminate].
  unfold path_len, assert. destruct (path g1) as [|x p] eqn:E; simpl.
  - intros H; inversion H; subst. exact E.
  - discriminate.
Qed.

(** C5 at the run on [(pcb] followed by [(pcb)]: the first file fails and
    leaves [pcb] on [path], which nothing empties; the walk of the second
    file starts from that path, counts [pcb.pcb] instead of [pcb], and the
    closing assertion fails although the file is balanced. *)
Lemma path_survives_failed_file :
  process unbalanced_file init
  = (Raise AssertionError,
     {| path := [lit "pcb"]; counts := [(lit "pcb", 1)] |}) /\
  path (snd (process unbalanced_file init)) <> [] /\
  process balanced_file
    {| path := [lit "pcb"]; counts := [(lit "pcb", 1)] |}
  = (Raise AssertionError,
     {| path := [lit "pcb"];
        counts := [(lit "pcb", 1); (lit "pcb.pcb", 1)] |}) /\
  process balanced_file init
  = (Ok tt, {| path := []; counts := [(lit "pcb", 1)] |}) /\
  main [(lit "a.dsn", Some unbalanced_file);
        (lit "b.dsn", Some balanced_file)]
  = [ lit "Failed to process a.dsn"; lit "Failed to process b.dsn";
      lit "pcb: 1"; lit "pcb.pcb: 1" ].
Proof.
  repeat split; try (vm_compute; reflexivity).
  vm_compute. discriminate.
Qed.

(** ** The order of strings *)

Lemma ascii_compare_refl x : Ascii.compare x x = Eq.
Proof. unfold Ascii.compare. apply N.compare_refl. Qed.

Lemma ascii_compare_lt_trans x y z :
  Ascii.compare x y = Lt -> Ascii.compare y z = Lt -> Ascii.compare x z = Lt.
Proof.
  unfold Ascii.compare. rewrite !N.compare_lt_iff. apply N.lt_trans.
Qed.

Lemma str_compare_eq a b : Py.str_compare a b = Eq -> a = b.
Proof.
  revert b; induction a as [|x a IH]; intros [|y b]; simpl;
    try discriminate; [reflexivity|].
  destruct (Ascii.compare x y) eqn:E; try discriminate.
  apply Ascii.compare_eq_iff in E. intros H. apply IH in H. congruence.
Qed.

Lemma str_compare_refl a : Py.str_compare a a = Eq.
Proof.
  induction a as [|x a IH]; simpl; [reflexivity|].
  rewrite ascii_compare_refl. exact IH.
Qed.

Lemma str_compare_antisym a b :
  Py.str_compare a b = CompOpp (Py.str_compare b a).
Proof.
  revert b; induction a as [|x a IH]; intros [|y b]; simpl;
    try reflexivity.
  rewrite (Ascii.compare_antisym x y).
  destruct (Ascii.compare y x); simpl; auto.
Qed.

Lemma str_compare_lt_trans a b c :
  Py.str_compare a b = Lt -> Py.str_compare b c = Lt ->
  Py.str_compare a c = Lt.
Proof.
  revert b c; induction a as [|x a IH]; intros [|y b] [|z c]; simpl;
    try discriminate; try reflexivity.
  destruct (Ascii.compare x y) eqn:Exy; try discriminate;
    destruct (Ascii.compare y z) eqn:Eyz; try discriminate; intros Hab Hbc.
  - apply Ascii.compare_eq_iff in Exy, Eyz. subst.
    rewrite ascii_compare_refl. eapply IH; eassumption.
  - apply Ascii.compare_eq_iff in Exy. subst. rewrite Eyz. reflexivity.
  - apply Ascii.compare_eq_iff in Eyz. subst. rewrite Exy. reflexivity.
  - rewrite (ascii_compare_lt_trans _ _ _ Exy Eyz). reflexivity.
Qed.

(** ** Sorting *)

Section SortFacts.
Variables (A K : Type) (key : A -> K) (lt : K -> K -> bool).
Variable le : A -> A -> Prop.
Hypothesis le_of_not_lt : forall x y, lt (key y) (key x) = false -> le x y.
Hypothesis le_of_lt : forall x y, lt (key y) (key x) = true -> le y x.

Lemma sort_insert_perm x l : Permutation (sort_insert key lt x l) (x :: l).
Proof.
  induction l as [|y l IH]; simpl; [reflexivity|].
  destruct (lt (key y) (key x)); [|reflexivity].
  rewrite IH. apply perm_swap.
Qed.

Lemma sort_perm l : Permutation (sort key lt l) l.
Proof.
  induction l as [|x l IH]; simpl; [reflexivity|].
  rewrite sort_insert_perm. constructor. exact IH.
Qed.

Lemma sort_insert_hd x y l :
  le y x -> HdRel le y l -> HdRel le y (sort_insert key lt x l).
Proof.
  intros Hyx Hhd. destruct l as [|z l]; simpl; [constructor; exact Hyx|].
  inversion Hhd; subst.
  destruct (lt (key z) (key x)); constructor; assumption.
Qed.

Lemma sort_insert_sorted x l :
  Sorted le l -> Sorted le (sort_insert key lt x l).
Proof.
  induction l as [|y l IH]; simpl; intros Hs.
  - repeat constructor.
  - inversion Hs; subst. destruct (lt (key y) (key x)) eqn:E.
    + constructor; [apply IH; assumption|].
      apply sort_insert_hd; [apply le_of_lt; exact E | assumption].
    + constructor; [exact Hs|]. constructor. apply le_of_not_lt. exact E.
Qed.

Lemma sort_sorted l : Sorted le (sort key lt l).
Proof.
  induction l as [|x l IH]; simpl; [constructor|].
  apply sort_insert_sorted. exact IH.
Qed.
End SortFacts.

(** ** The report *)

Lemma path_then_count_of_not_lt x y :
  tuple_lt (snd y, fst y) (snd x, fst x) = false -> path_then_count x y.
Proof.
  unfold tuple_lt, path_then_count. simpl.
  rewrite (str_compare_antisym (snd x) (snd y)).
  destruct (Py.str_compare (snd y) (snd x)) eqn:E; simpl;
    try discriminate; auto.
  intros H. apply Nat.ltb_ge in H. apply str_compare_eq in E. auto.
Qed.

Lemma path_then_count_of_lt x y :
  tuple_lt (snd y, fst y) (snd x, fst x) = true -> path_then_count y x.
Proof.
  unfold tuple_lt, path_then_count. simpl.
  destruct (Py.str_compare (snd y) (snd x)) eqn:E; try discriminate; auto.
  intros H. apply Nat.ltb_lt in H. apply str_compare_eq in E.
  right. split; [exact E | lia].
Qed.

Lemma path_then_count_trans x y z :
  path_then_count x y -> path_then_count y z -> path_then_count x z.
Proof.
  unfold path_then_count. intros [Hxy | [Exy Hxy]] [Hyz | [Eyz Hyz]].
  - left. eapply str_compare_lt_trans; eassumption.
  - left. rewrite <- Eyz. exact Hxy.
  - left. rewrite Exy. exact Hyz.
  - right. split; [congruence | lia].
Qed.

(** C3 does not hold as it is written: after this file the report puts
    [pcb.net: 2] before [pcb.wire: 1], so its lines are not in ascending
    order of count. *)
Lemma report_not_by_count :
  main [(lit "a.dsn", Some report_file)]
  = [lit "pcb: 1"; lit "pcb.net: 2"; lit "pcb.wire: 1"] /\
  report (snd (main_loop [(lit "a.dsn", Some report_file)] init))
  = [(1, lit "pcb"); (2, lit "pcb.net"); (1, lit "pcb.wire")] /\
  ~ Sorted count_then_path
      (report (snd (main_loop [(lit "a.dsn", Some report_file)] init))).
Proof.
  assert (H : report (snd (main_loop [(lit "a.dsn", Some report_file)] init))
              = [(1, lit "pcb"); (2, lit "pcb.net"); (1, lit "pcb.wire")])
    by (vm_compute; reflexivity).
  repeat split; try (vm_compute; reflexivity); try exact H.
  rewrite H. intros Hs.
  inversion Hs as [|? ? Hs1 _]; subst.
  inversion Hs1 as [|? ? _ Hhd]; subst.
  inversion Hhd as [|? ? Hrel]; subst.
  destruct Hrel as [Hlt | [Heq _]]; simpl in *; [lia | discriminate].
Qed.

(** C3, amended. The report has one line per entry of the accumulator, of
    the form [<dot.joined.path>: <count>], and the lines are in ascending
    order of the path string first (code point by code point) and of the
    count second. *)
Theorem print_counts_sorted (g : Globals) :
  print_counts g = map line (report g) /\
  Permutation (report g) (map (fun kv => (snd kv, fst kv)) (counts g)) /\
  length (print_counts g) = length (counts g) /\
  StronglySorted path_then_count (report g).
Proof.
  assert (Hperm : Permutation (report g)
                    (map (fun kv => (snd kv, fst kv)) (counts g)))
    by apply sort_perm.
  assert (Hprint : print_counts g = map line (report g)) by reflexivity.
  repeat split.
  - exact Hperm.
  - rewrite Hprint, length_map, (Permutation_length Hperm).
    apply length_map.
  - apply Sorted_StronglySorted.
    + intros x y z. apply path_then_count_trans.
    + apply sort_sorted.
      * intros x y. apply path_then_count_of_not_lt.
      * intros x y. apply path_then_count_of_lt.
Qed.

(** * Further properties *)

(** ** [add_path] and the dictionary *)

Lemma get_none_keys k d : Dict.get k d = None <-> ~ In k (map fst d).
Proof.
  induction d as [|[k1 v] d IH]; simpl; [tauto|].
  destruct (Py.str_eqb k k1) eqn:E.
  - apply str_eqb_eq in E. subst. split; [discriminate|]. tauto.
  - split.
    + intros H [Heq | Hin]; [|tauto].
      subst. rewrite str_eqb_refl in E. discriminate.
    + tauto.
Qed.

Lemma get_app_none k d d' :
  Dict.get k d = None -> Dict.get k (d ++ d') = Dict.get k d'.
Proof.
  induction d as [|[k1 v] d IH]; simpl; [reflexivity|].
  destruct (Py.str_eqb k k1); [discriminate | exact IH].
Qed.

Lemma incr_app_none k d d' :
  Dict.get k d = None -> Dict.incr k (d ++ d') = d ++ Dict.incr k d'.
Proof.
  induction d as [|[k1 v] d IH]; simpl; [reflexivity|].
  destruct (Py.str_eqb k k1); [discriminate|].
  intros H. rewrite IH by exact H. reflexivity.
Qed.

Lemma get_incr_same k d n :
  Dict.get k d = Some n -> Dict.get k (Dict.incr k d) = Some (n + 1).
Proof.
  induction d as [|[k1 v] d IH]; simpl; [discriminate|].
  destruct (Py.str_eqb k k1) eqn:E; simpl; rewrite E.
  - intros H; inversion H; reflexivity.
  - exact IH.
Qed.

Lemma get_incr_other k k' d :
  k <> k' -> Dict.get k (Dict.incr k' d) = Dict.get k d.
Proof.
  intros Hne. induction d as [|[k1 v] d IH]; simpl; [reflexivity|].
  destruct (Py.str_eqb k' k1) eqn:E'; simpl.
  - apply str_eqb_eq in E'. subst k1.
    rewrite (str_eqb_neq _ _ Hne). reflexivity.
  - destruct (Py.str_eqb k k1); [reflexivity | exact IH].
Qed.

Lemma get_setdefault_other k k' v d :
  k <> k' -> Dict.get k (Dict.setdefault k' v d) = Dict.get k d.
Proof.
  intros Hne. unfold Dict.setdefault.
  destruct (Dict.get k' d); [reflexivity|].
  destruct (Dict.get k d) as [n|] eqn:E.
  - apply get_app_some. exact E.
  - rewrite get_app_none by exact E. simpl.
    rewrite (str_eqb_neq _ _ Hne). reflexivity.
Qed.

Lemma keys_incr k d : map fst (Dict.incr k d) = map fst d.
Proof.
  induction d as [|[k1 v] d IH]; simpl; [reflexivity|].
  destruct (Py.str_eqb k k1); simpl; [reflexivity|]. rewrite IH.
  reflexivity.
Qed.

(** X1. [add_path] always returns normally and leaves [path] alone.  After
    it the entry of the dot-joined path is one more than before, or 1 when
    there was none, and the entry of every other key is what it was. *)
Theorem add_path_lookup (g : Globals) (k : str) :
  fst (add_path g) = Ok tt /\
  path (snd (add_path g)) = path g /\
  Dict.get (Py.join dot (path g)) (counts (snd (add_path g)))
  = Some (match Dict.get (Py.join dot (path g)) (counts g) with
          | Some n => n + 1
          | None => 1
          end) /\
  (k <> Py.join dot (path g) ->
   Dict.get k (counts (snd (add_path g))) = Dict.get k (counts g)).
Proof.
  repeat split; simpl.
  - unfold Dict.setdefault.
    destruct (Dict.get (Py.join dot (path g)) (counts g)) as [n|] eqn:E.
    + apply get_incr_same. exact E.
    + rewrite incr_app_none by exact E. rewrite get_app_none by exact E.
      simpl. rewrite !str_eqb_refl. simpl. rewrite str_eqb_refl.
      reflexivity.
  - intros Hne. rewrite get_incr_other by exact Hne.
    apply get_setdefault_other. exact Hne.
Qed.

Lemma add_path_lookup_witness :
  Dict.get (lit "pcb")
    (counts (snd (add_path {| path := [lit "pcb"; lit "net"];
                              counts := [(lit "pcb", 4)] |})))
  = Some 4.
Proof.
  apply (proj2 (proj2 (proj2
           (add_path_lookup {| path := [lit "pcb"; lit "net"];
                               counts := [(lit "pcb", 4)] |}
              (lit "pcb"))))).
  vm_compute. discriminate.
Defined.

Lemma total_app d d' : total (d ++ d') = total d + total d'.
Proof. unfold total. rewrite map_app, list_sum_app. reflexivity. Qed.

Lemma total_incr k d n :
  Dict.get k d = Some n -> total (Dict.incr k d) = total d + 1.
Proof.
  unfold total. induction d as [|[k1 v] d IH]; simpl; [discriminate|].
  destruct (Py.str_eqb k k1); simpl.
  - intros _. lia.
  - intros H. rewrite IH by exact H. lia.
Qed.

Lemma total_incr_setdefault d ct :
  total (Dict.incr ct (Dict.setdefault ct 0 d)) = total d + 1.
Proof.
  unfold Dict.setdefault. destruct (Dict.get ct d) as [n|] eqn:E.
  - eapply total_incr. exact E.
  - rewrite incr_app_none by exact E. rewrite total_app. simpl.
    rewrite str_eqb_refl. unfold total. simpl. lia.
Qed.

(** X2. Every call of [add_path] adds exactly one to the sum of all
    counts. *)
Theorem add_path_total (g : Globals) :
  total (counts (snd (add_path g))) = total (counts g) + 1.
Proof. apply total_incr_setdefault. Qed.

Lemma add_path_ok d ct :
  dict_ok d -> dict_ok (Dict.incr ct (Dict.setdefault ct 0 d)).
Proof.
  intros [Hnd Hpos]. unfold Dict.setdefault.
  destruct (Dict.get ct d) as [n|] eqn:E.
  - split; [rewrite keys_incr; exact Hnd|].
    clear Hnd E. induction d as [|[k1 v] d IH]; simpl; [constructor|].
    inversion Hpos; subst.
    destruct (Py.str_eqb ct k1); constructor; simpl in *; auto; lia.
  - rewrite incr_app_none by exact E. simpl. rewrite str_eqb_refl. split.
    + rewrite map_app. simpl.
      apply NoDup_app; [exact Hnd | repeat constructor; simpl; tauto |].
      intros k Hin [Hk | []]. subst k.
      apply get_none_keys in E. contradiction.
    + apply Forall_app. split; [exact Hpos|]. repeat constructor.
Qed.

(** ** What every turn, file and run does to the accumulator *)

Section Lift.
Variable R : Dict.t -> Dict.t -> Prop.
Hypothesis R_refl : forall d, R d d.
Hypothesis R_trans : forall d1 d2 d3, R d1 d2 -> R d2 d3 -> R d1 d3.
Hypothesis R_add_path :
  forall d ct, R d (Dict.incr ct (Dict.setdefault ct 0 d)).

Lemma lifts_ret {A} (a : A) : lifts R (ret a).
Proof. intros g. apply R_refl. Qed.

Lemma lifts_raise {A} e : lifts R (@raise A e).
Proof. intros g. apply R_refl. Qed.

Lemma lifts_bind {A B} (m : M A) (f : A -> M B) :
  lifts R m -> (forall a, lifts R (f a)) -> lifts R (bind m f).
Proof.
  intros Hm Hf g. unfold bind. specialize (Hm g).
  destruct (m g) as [[a|e] g1]; simpl in *; [|exact Hm].
  eapply R_trans; [exact Hm | apply Hf].
Qed.

Lemma lifts_assert b : lifts R (assert b).
Proof. destruct b; [apply lifts_ret | apply lifts_raise]. Qed.

Lemma lifts_path_append x : lifts R (path_append x).
Proof. intros g. apply R_refl. Qed.

Lemma lifts_path_pop : lifts R path_pop.
Proof. intros g. unfold path_pop. destruct (path g); apply R_refl. Qed.

Lemma lifts_path_len : lifts R path_len.
Proof. intros g. apply R_refl. Qed.

Lemma lifts_add_path : lifts R add_path.
Proof. intros g. apply R_add_path. Qed.

Lemma lifts_next_token tokens idx : lifts R (next_token tokens idx).
Proof.
  unfold next_token. destruct (nth_error tokens (idx + 1 - 1));
    [apply lifts_ret | apply lifts_raise].
Qed.

Lemma lifts_loop_body tokens idx : lifts R (loop_body tokens idx).
Proof.
  pose proof (@lifts_ret nat) as Hret.
  pose proof lifts_assert as Hassert.
  pose proof lifts_path_append as Happ.
  pose proof lifts_path_pop as Hpop.
  pose proof lifts_add_path as Hadd.
  unfold loop_body. apply lifts_bind; [apply lifts_next_token|].
  intros [t idx1]. destruct (Py.str_eqb t lparen).
  - apply lifts_bind; [apply lifts_next_token|]. intros [nt idx2].
    repeat (apply lifts_bind; [auto | intros _]). auto.
  - destruct (Py.str_eqb t rparen).
    + apply lifts_bind; [auto | intros _]. auto.
    + apply lifts_bind; [apply lifts_path_len | intros n].
      apply lifts_bind; [auto | intros _].
      destruct (valid_keyword t); [|auto].
      repeat (apply lifts_bind; [auto | intros _]). auto.
Qed.

Lemma lifts_walk tokens idx : lifts R (walk tokens idx).
Proof.
  intros g. funelim (walk tokens idx g);
    try match goal with
        | E : loop_body ?t ?i ?g0 = _ |- _ =>
            pose proof (lifts_loop_body t i g0) as Hm;
            rewrite E in Hm; simpl in Hm
        end.
  - apply R_refl.
  - eapply R_trans; eassumption.
  - exact Hm.
Qed.

Lemma lifts_process data : lifts R (process data).
Proof.
  unfold process. destruct (lex data) as [tokens|e]; [|apply lifts_raise].
  apply lifts_bind; [apply lifts_walk | intros _].
  apply lifts_bind; [apply lifts_path_len | intros n]. apply lifts_assert.
Qed.

Lemma lifts_try_body f : lifts R (try_body f).
Proof.
  unfold try_body.
  destruct (snd f); [apply lifts_process | apply lifts_raise].
Qed.

Lemma lifts_main_loop files g :
  R (counts g) (counts (snd (main_loop files g))).
Proof.
  revert g; induction files as [|f files IH]; intros g; simpl;
    [apply R_refl|].
  pose proof (lifts_try_body f g) as Hf.
  destruct (try_body f g) as [r g1]. simpl in Hf.
  specialize (IH g1). destruct (main_loop files g1) as [outs g2].
  simpl in *. eapply R_trans; eassumption.
Qed.
End Lift.

(** X3. Over a whole run, whatever its files are and whether they fail or
    not, no entry of the accumulator is ever removed and no count ever goes
    down. *)
Theorem run_counts_grow (files : list file) (g : Globals) :
  grows (counts g) (counts (snd (main_loop files g))).
Proof.
  apply lifts_main_loop.
  - apply grows_refl.
  - apply grows_trans.
  - intros d ct.
    eapply grows_trans; [apply grows_setdefault | apply grows_incr].
Qed.

Lemma run_counts_grow_witness :
  exists n',
    Dict.get (lit "pcb")
      (counts (snd (main_loop [(lit "a.dsn", Some unbalanced_file);
                               (lit "b.dsn", None)]
                      {| path := []; counts := [(lit "pcb", 2)] |})))
    = Some n' /\ 2 <= n'.
Proof.
  apply (run_counts_grow [(lit "a.dsn", Some unbalanced_file);
                          (lit "b.dsn", None)]
           {| path := []; counts := [(lit "pcb", 2)] |} (lit "pcb") 2).
  reflexivity.
Defined.

(** X4. A run keeps the accumulator well formed: when its keys are pairwise
    distinct and its counts are at least 1 before the run, they are so after
    it; in particular they are so in every run of the script, which starts
    from the empty accumulator. *)
Theorem run_dict_ok (files : list file) (g : Globals) :
  dict_ok (counts g) -> dict_ok (counts (snd (main_loop files g))).
Proof.
  apply (lifts_main_loop (fun d d' => dict_ok d -> dict_ok d')).
  - auto.
  - auto.
  - intros d ct. apply add_path_ok.
Qed.

Lemma run_dict_ok_witness :
  dict_ok
    (counts (snd (main_loop [(lit "a.dsn", Some report_file);
                             (lit "b.dsn", Some unbalanced_file)] init))).
Proof.
  apply run_dict_ok. split; constructor.
Defined.

(** X5. The loop over the files can be cut anywhere: running it on
    [files1 ++ files2] prints what running it on [files1] prints, followed by
    what running it on [files2] from the globals left by [files1] prints,
    and ends with the same globals. *)
Theorem main_loop_app (files1 files2 : list file) (g : Globals) :
  main_loop (files1 ++ files2) g
  = (fst (main_loop files1 g)
     ++ fst (main_loop files2 (snd (main_loop files1 g))),
     snd (main_loop files2 (snd (main_loop files1 g)))).
Proof.
  revert g; induction files1 as [|f files1 IH]; intros g; simpl.
  - destruct (main_loop files2 g); reflexivity.
  - destruct (try_body f g) as [r g1]. rewrite IH.
    destruct (main_loop files1 g1) as [o1 g2]. simpl.
    rewrite app_assoc. reflexivity.
Qed.

(** ** The turns of the walk, case by case *)

Lemma skipn_nth {A} (l : list A) i x :
  nth_error l i = Some x -> skipn i l = x :: skipn (S i) l.
Proof.
  revert i; induction l as [|y l IH]; intros [|i]; simpl; try discriminate.
  - intros H; inversion H; reflexivity.
  - intros H. apply IH in H. exact H.
Qed.

Lemma skipn_past {A} (l : list A) i :
  nth_error l i = None -> skipn i l = [].
Proof.
  intros H. apply nth_error_None in H. apply skipn_all2. exact H.
Qed.

Lemma loop_body_cases tokens idx g :
  loop_body tokens idx g
  = match nth_error tokens idx with
    | None => (Raise IndexError, g)
    | Some t =>
        if Py.str_eqb t lparen then
          match nth_error tokens (idx + 1) with
          | None => (Raise IndexError, g)
          | Some nt =>
              if Py.str_eqb nt rparen then (Raise AssertionError, g)
              else (Ok (idx + 1 + 1),
                    snd (add_path (snd (path_append nt g))))
          end
        else if Py.str_eqb t rparen then
          match path g with
          | [] => (Raise IndexError, g)
          | _ :: _ =>
              (Ok (idx + 1),
               {| path := removelast (path g); counts := counts g |})
          end
        else
          match path g with
          | [] => (Raise AssertionError, g)
          | _ :: _ =>
              if valid_keyword t then
                (Ok (idx + 1),
                 {| path := path g;
                    counts :=
                      counts (snd (add_path (snd (path_append t g)))) |})
              else (Ok (idx + 1), g)
          end
    end.
Proof.
  unfold loop_body, bind.
  destruct (nth_error tokens idx) as [t|] eqn:Ht.
  2: { rewrite (next_token_end _ _ g Ht). reflexivity. }
  rewrite (next_token_at _ _ _ g Ht).
  destruct (Py.str_eqb t lparen).
  - destruct (nth_error tokens (idx + 1)) as [nt|] eqn:Hnt.
    2: { rewrite (next_token_end _ _ g Hnt). reflexivity. }
    rewrite (next_token_at _ _ _ g Hnt).
    destruct (Py.str_eqb nt rparen); reflexivity.
  - destruct (Py.str_eqb t rparen).
    + unfold path_pop, ret. destruct (path g); reflexivity.
    + unfold path_len, assert. destruct (path g) as [|x p] eqn:Ep;
        [reflexivity|].
      simpl. destruct (valid_keyword t); [|reflexivity].
      unfold path_append, add_path, path_pop, ret. simpl. rewrite Ep.
      destruct ((x :: p) ++ [t]) eqn:E; [discriminate|].
      rewrite <- E. rewrite removelast_last. reflexivity.
Qed.

(** X6. A keyword met inside a group (neither parenthesis, [path] not
    empty) is counted as a leaf: the entry of the current path extended by
    the keyword goes up by one, as [add_path] does it, and [path] is after
    the turn what it was before it. *)
Theorem keyword_atom_counted (tokens : list str) (idx : nat) (t : str)
    (g : Globals) :
  nth_error tokens idx = Some t ->
  t <> lparen ->
  t <> rparen ->
  valid_keyword t = true ->
  path g <> [] ->
  loop_body tokens idx g
  = (Ok (idx + 1),
     {| path := path g;
        counts :=
          Dict.incr (Py.join dot (path g ++ [t]))
            (Dict.setdefault (Py.join dot (path g ++ [t])) 0 (counts g)) |}).
Proof.
  intros Ht Hl Hr Hkw Hpath. rewrite loop_body_cases, Ht.
  rewrite (str_eqb_neq _ _ Hl), (str_eqb_neq _ _ Hr), Hkw.
  unfold add_path, path_append. simpl.
  destruct (path g) as [|x p]; [congruence|]. reflexivity.
Qed.

Lemma keyword_atom_counted_witness :
  loop_body [lparen; lit "layer"; lit "top"; rparen] 2
    {| path := [lit "layer"]; counts := [(lit "layer", 1)] |}
  = (Ok 3, {| path := [lit "layer"];
              counts := [(lit "layer", 1); (lit "layer.top", 1)] |}).
Proof.
  apply (keyword_atom_counted [lparen; lit "layer"; lit "top"; rparen] 2
           (lit "top") {| path := [lit "layer"];
                          counts := [(lit "layer", 1)] |}).
  - reflexivity.
  - discriminate.
  - discriminate.
  - vm_compute. reflexivity.
  - discriminate.
Defined.

(** X7. Outside any group ([path] empty) only an open parenthesis can be
    read: any other token, a closing parenthesis or an atom, keyword or not,
    makes the turn raise, with the globals untouched. *)
Theorem token_outside_group_raises (tokens : list str) (idx : nat) (t : str)
    (g : Globals) :
  nth_error tokens idx = Some t ->
  t <> lparen ->
  path g = [] ->
  loop_body tokens idx g
  = (Raise (if Py.str_eqb t rparen then IndexError else AssertionError), g).
Proof.
  intros Ht Hl Hpath. rewrite loop_body_cases, Ht.
  rewrite (str_eqb_neq _ _ Hl), Hpath.
  destruct (Py.str_eqb t rparen); reflexivity.
Qed.

Lemma token_outside_group_raises_witness :
  loop_body [lit "pcb"; lparen] 0 init = (Raise AssertionError, init).
Proof.
  apply (token_outside_group_raises [lit "pcb"; lparen] 0 (lit "pcb") init).
  - reflexivity.
  - discriminate.
  - reflexivity.
Defined.

(** X8. When a turn of the walk raises, the walk ends with that exception
    and with the globals as the turns before it left them: the failing turn
    itself changes neither [path] nor [counts], and nothing is undone. *)
Theorem walk_raise_state (tokens : list str) (g0 g g' : Globals)
    (idx : nat) (e : exn) :
  reaches tokens g0 idx g ->
  idx < length tokens ->
  loop_body tokens idx g = (Raise e, g') ->
  g' = g /\ walk tokens 0 g0 = (Raise e, g).
Proof.
  intros Hreach Hlt Hturn.
  assert (Hg : g' = g) by (eapply turn_raise_keeps; exact Hturn).
  split; [exact Hg|]. subst g'.
  rewrite (reaches_walk _ _ _ _ Hreach). rewrite walk_turn by exact Hlt.
  rewrite Hturn. reflexivity.
Qed.

Lemma walk_raise_state_witness :
  {| path := [lit "pcb"]; counts := [(lit "pcb", 1)] |}
  = {| path := [lit "pcb"]; counts := [(lit "pcb", 1)] |} /\
  walk empty_pairs_tokens 0 init
  = (Raise AssertionError,
     {| path := [lit "pcb"]; counts := [(lit "pcb", 1)] |}).
Proof.
  apply (walk_raise_state empty_pairs_tokens init
           {| path := [lit "pcb"]; counts := [(lit "pcb", 1)] |}
           {| path := [lit "pcb"]; counts := [(lit "pcb", 1)] |}
           2 AssertionError).
  - apply (@reaches_turn empty_pairs_tokens init 0 init).
    + apply reaches_start.
    + vm_compute. lia.
    + vm_compute. reflexivity.
  - vm_compute. lia.
  - vm_compute. reflexivity.
Defined.

(** ** Which token streams the walk accepts *)

Lemma length_removelast_cons {A} (x : A) p :
  length (removelast (x :: p)) = length p.
Proof.
  revert x; induction p as [|y p IH]; intros x; [reflexivity|].
  change (removelast (x :: y :: p)) with (x :: removelast (y :: p)).
  cbn [length]. f_equal. apply IH.
Qed.

Lemma walk_depth tokens :
  forall n idx g,
    length tokens - idx <= n ->
    match depth_after (skipn idx tokens) (length (path g)) with
    | Some d =>
        exists g', walk tokens idx g = (Ok tt, g') /\ length (path g') = d
    | None => exists e g', walk tokens idx g = (Raise e, g')
    end.
Proof.
  induction n as [|n IH]; intros idx g Hn;
    destruct (nth_error tokens idx) as [t|] eqn:Ht.
  - assert (idx < length tokens) by (apply nth_error_Some; congruence). lia.
  - rewrite (skipn_past _ _ Ht). simpl. exists g. split; [|reflexivity].
    apply walk_end. apply nth_error_None. exact Ht.
  - assert (Hlt : idx < length tokens)
      by (apply nth_error_Some; congruence).
    rewrite (skipn_nth _ _ _ Ht). rewrite walk_turn by exact Hlt.
    rewrite loop_body_cases, Ht. cbn [depth_after].
    destruct (Py.str_eqb t lparen).
    + replace (S idx) with (idx + 1) by lia.
      destruct (nth_error tokens (idx + 1)) as [nt|] eqn:Hnt.
      * rewrite (skipn_nth _ _ _ Hnt).
        destruct (Py.str_eqb nt rparen); [simpl; eauto|].
        replace (S (idx + 1)) with (idx + 1 + 1) by lia.
        assert (Hd : S (length (path g))
                     = length (path (snd (add_path
                                            (snd (path_append nt g)))))).
        { simpl. rewrite length_app. simpl. lia. }
        rewrite Hd. apply IH. lia.
      * rewrite (skipn_past _ _ Hnt). simpl. eauto.
    + replace (S idx) with (idx + 1) by lia.
      destruct (Py.str_eqb t rparen).
      * destruct (path g) as [|x p] eqn:Ep; simpl length; [simpl; eauto|].
        rewrite <- (length_removelast_cons x p).
        apply (IH (idx + 1)
                 {| path := removelast (x :: p); counts := counts g |}).
        lia.
      * destruct (path g) as [|x p] eqn:Ep; simpl length; [simpl; eauto|].
        destruct (valid_keyword t).
        -- apply (IH (idx + 1)
                    {| path := x :: p;
                       counts :=
                         counts (snd (add_path (snd (path_append t g)))) |}).
           lia.
        -- specialize (IH (idx + 1) g). rewrite Ep in IH. apply IH. lia.
  - rewrite (skipn_past _ _ Ht). simpl. exists g. split; [|reflexivity].
    apply walk_end. apply nth_error_None. exact Ht.
Qed.

(** X9. Whether [process] accepts a file is decided by its tokens and by
    the depth of [path] at the start alone, not by the counts and not by
    the keyword table: the file is accepted exactly when the scan yields
    tokens whose parentheses, read as the walk reads them, lead from that
    depth back to depth 0; and then [path] is empty afterwards. *)
Theorem process_accepts_iff (data : str) (g : Globals) :
  ((exists g', process data g = (Ok tt, g')) <->
   (exists tokens, lex data = Ok tokens /\
                   depth_after tokens (length (path g)) = Some 0)) /\
  (forall g', process data g = (Ok tt, g') -> path g' = []).
Proof.
  split; [|intros g'; apply process_ok_path_empty].
  unfold process. destruct (lex data) as [tokens|e].
  2: { split; [intros [g' H]; discriminate
               | intros (tokens & H & _); discriminate]. }
  pose proof (walk_depth tokens (length tokens) 0 g ltac:(lia)) as Hw.
  cbn [skipn] in Hw. unfold bind, path_len, assert. split.
  - intros [g' Hrun]. exists tokens. split; [reflexivity|].
    destruct (depth_after tokens (length (path g))) as [d|].
    + destruct Hw as (g1 & Hwalk & Hlen). rewrite Hwalk in Hrun.
      destruct (path g1); [simpl in Hlen; congruence | discriminate].
    + destruct Hw as (e & g1 & Hwalk). rewrite Hwalk in Hrun.
      discriminate.
  - intros (tokens' & Heq & Hd). inversion Heq; subst tokens'.
    rewrite Hd in Hw. destruct Hw as (g1 & Hwalk & Hlen).
    exists g1. rewrite Hwalk.
    destruct (path g1); [reflexivity | discriminate].
Qed.

Lemma process_accepts_iff_witness :
  exists g', process balanced_file init = (Ok tt, g').
Proof.
  apply (proj2 (proj1 (process_accepts_iff balanced_file init))).
  exists [lparen; lit "pcb"; rparen]. split; vm_compute; reflexivity.
Defined.

Lemma walk_records tokens :
  forall n idx g g',
    length tokens - idx <= n ->
    walk tokens idx g = (Ok tt, g') ->
    total (counts g') = total (counts g) + records (skipn idx tokens).
Proof.
  induction n as [|n IH]; intros idx g g' Hn;
    destruct (nth_error tokens idx) as [t|] eqn:Ht.
  - assert (idx < length tokens) by (apply nth_error_Some; congruence). lia.
  - rewrite (skipn_past _ _ Ht). rewrite walk_end
      by (apply nth_error_None; exact Ht).
    intros H; inversion H; subst. simpl. lia.
  - assert (Hlt : idx < length tokens)
      by (apply nth_error_Some; congruence).
    rewrite (skipn_nth _ _ _ Ht). rewrite walk_turn by exact Hlt.
    rewrite loop_body_cases, Ht. cbn [records].
    replace (S idx) with (idx + 1) by lia.
    destruct (Py.str_eqb t lparen).
    + destruct (nth_error tokens (idx + 1)) as [nt|] eqn:Hnt;
        [|discriminate].
      rewrite (skipn_nth _ _ _ Hnt).
      destruct (Py.str_eqb nt rparen); [discriminate|].
      replace (S (idx + 1)) with (idx + 1 + 1) by lia.
      intros Hw. apply IH in Hw; [|lia]. rewrite Hw.
      cbn [add_path path_append snd counts path].
      rewrite total_incr_setdefault. lia.
    + destruct (Py.str_eqb t rparen).
      * destruct (path g) as [|x p]; [discriminate|].
        intros Hw. apply IH in Hw; [|lia]. exact Hw.
      * destruct (path g) as [|x p]; [discriminate|].
        destruct (valid_keyword t); intros Hw; apply IH in Hw; try lia.
        rewrite Hw. cbn [add_path path_append snd counts path].
        rewrite total_incr_setdefault. simpl. lia.
  - rewrite (skipn_past _ _ Ht). rewrite walk_end
      by (apply nth_error_None; exact Ht).
    intros H; inversion H; subst. simpl. lia.
Qed.

(** X10. An accepted file adds to the sum of all counts exactly the number
    of groups it opens plus the number of keywords it holds elsewhere:
    nothing is counted twice and nothing is skipped. *)
Theorem process_total (data : str) (g g' : Globals) :
  process data g = (Ok tt, g') ->
  exists tokens,
    lex data = Ok tokens /\
    total (counts g') = total (counts g) + records tokens.
Proof.
  unfold process. destruct (lex data) as [tokens|e]; [|discriminate].
  unfold bind, path_len, assert.
  destruct (walk tokens 0 g) as [[[]|e] g1] eqn:Hwalk; [|discriminate].
  destruct (path g1); [|discriminate]. simpl.
  intros H; inversion H; subst g1. exists tokens. split; [reflexivity|].
  apply (walk_records tokens (length tokens) 0 g g'); [lia | exact Hwalk].
Qed.

Lemma process_total_witness :
  exists tokens,
    lex sample_file = Ok tokens /\
    total [ (lit "pcb", 1); (lit "pcb.structure", 1);
            (lit "pcb.structure.layer", 1);
            (lit "pcb.structure.layer.top", 1) ]
    = total [] + records tokens.
Proof.
  apply (process_total sample_file init
           {| path := [];
              counts := [ (lit "pcb", 1); (lit "pcb.structure", 1);
                          (lit "pcb.structure.layer", 1);
                          (lit "pcb.structure.layer.top", 1) ] |}).
  vm_compute. reflexivity.
Defined.

(** ** More on the quote scan *)

Lemma squash_length quote inside s r :
  squash quote inside s = Some r -> length r <= length s.
Proof.
  revert inside r; induction s as [|c s IH]; intros inside r; simpl.
  - destruct inside; [discriminate|]. intros H; inversion H. simpl. lia.
  - destruct (Ascii.eqb c quote).
    + destruct (squash quote (negb inside) s) as [r1|] eqn:E;
        [|discriminate].
      simpl. intros H; inversion H; subst. apply IH in E. simpl. lia.
    + destruct inside.
      * intros H. apply IH in H. lia.
      * destruct (squash quote false s) as [r1|] eqn:E; [|discriminate].
        simpl. intros H; inversion H; subst. apply IH in E. simpl. lia.
Qed.

Lemma squash_count quote inside s r :
  squash quote inside s = Some r ->
  count_occ ascii_dec r quote = count_occ ascii_dec s quote.
Proof.
  revert inside r; induction s as [|c s IH]; intros inside r; simpl.
  - destruct inside; [discriminate|]. intros H; inversion H. reflexivity.
  - destruct (Ascii.eqb c quote) eqn:Ec.
    + apply Ascii.eqb_eq in Ec. subst c.
      destruct (squash quote (negb inside) s) as [r1|] eqn:E;
        [|discriminate].
      simpl. intros H; inversion H; subst. apply IH in E. simpl.
      destruct (ascii_dec quote quote); congruence.
    + apply Ascii.eqb_neq in Ec.
      destruct (ascii_dec c quote); [congruence|].
      destruct inside.
      * intros H. apply IH in H. exact H.
      * destruct (squash quote false s) as [r1|] eqn:E; [|discriminate].
        simpl. intros H; inversion H; subst. apply IH in E. simpl.
        destruct (ascii_dec c quote); congruence.
Qed.

Lemma squash_no_quote quote s :
  count_occ ascii_dec s quote = 0 -> squash quote false s = Some s.
Proof.
  induction s as [|c s IH]; simpl; [reflexivity|].
  destruct (ascii_dec c quote) as [->|Hne]; [discriminate|].
  intros H. apply Ascii.eqb_neq in Hne. rewrite Hne, (IH H). reflexivity.
Qed.

Lemma squash_again quote s :
  forall inside r,
    squash quote inside s = Some r ->
    if inside
    then exists r', r = quote :: r' /\ squash quote false r' = Some r'
    else squash quote false r = Some r.
Proof.
  induction s as [|c s IH]; intros inside r; simpl.
  - destruct inside; [discriminate|]. intros H; inversion H. reflexivity.
  - destruct (Ascii.eqb c quote) eqn:Ec.
    + destruct (squash quote (negb inside) s) as [r1|] eqn:E;
        [|discriminate].
      simpl. intros H; inversion H; subst r. apply IH in E.
      destruct inside; simpl in E.
      * exists r1. auto.
      * destruct E as (r' & -> & Hr').
        cbn [squash negb option_map]. rewrite !Ascii.eqb_refl.
        cbn [squash negb option_map]. rewrite Hr'. reflexivity.
    + destruct inside.
      * intros H. apply (IH true). exact H.
      * destruct (squash quote false s) as [r1|] eqn:E; [|discriminate].
        simpl. intros H; inversion H; subst r. apply (IH false) in E.
        simpl. rewrite Ec, E. reflexivity.
Qed.

(** X11. The quote scan succeeds exactly on the texts with an even number
    of quote characters.  When it succeeds its output is no longer than the
    text and holds as many quote characters as the text; otherwise the
    exception is [IndexError]. *)
Theorem quote_scan_parity (text : str) (quote : ascii) :
  (Nat.even (count_occ ascii_dec text quote) = true ->
   exists new_data,
     quote_loop text quote 0 [] = Ok new_data /\
     length new_data <= length text /\
     count_occ ascii_dec new_data quote = count_occ ascii_dec text quote) /\
  (Nat.even (count_occ ascii_dec text quote) = false ->
   quote_loop text quote 0 [] = Raise IndexError).
Proof.
  rewrite quote_loop_squash. cbn [skipn].
  pose proof (squash_none_iff quote false text) as Hnone.
  destruct (squash quote false text) as [r|] eqn:E; simpl.
  - split.
    + intros _. exists r. split; [reflexivity|]. split.
      * eapply squash_length. exact E.
      * eapply squash_count. exact E.
    + intros Hodd. apply Hnone in Hodd. discriminate.
  - split; [|reflexivity].
    intros Hev. destruct Hnone as [Hnone _]. rewrite (Hnone eq_refl) in Hev.
    discriminate.
Qed.

Lemma quote_scan_parity_witness :
  quote_loop open_quote_file dquote 0 [] = Raise IndexError.
Proof.
  apply (proj2 (quote_scan_parity open_quote_file dquote)).
  vm_compute. reflexivity.
Defined.

(** X12. A text without any quote character goes through the quote scan
    unchanged, whatever the quote character is. *)
Theorem quote_scan_plain (text : str) (quote : ascii) :
  count_occ ascii_dec text quote = 0 ->
  quote_loop text quote 0 [] = Ok text.
Proof.
  intros H. rewrite quote_loop_squash. cbn [skipn].
  rewrite (squash_no_quote _ _ H). reflexivity.
Qed.

Lemma quote_scan_plain_witness :
  quote_loop sample_file dquote 0 [] = Ok sample_file.
Proof. apply quote_scan_plain. vm_compute. reflexivity. Defined.

(** X13. The quote scan is idempotent: scanning the output of a scan that
    succeeded returns that output again. *)
Theorem quote_scan_idempotent (text new_data : str) (quote : ascii) :
  quote_loop text quote 0 [] = Ok new_data ->
  quote_loop new_data quote 0 [] = Ok new_data.
Proof.
  rewrite !quote_loop_squash. cbn [skipn].
  destruct (squash quote false text) as [r|] eqn:E; [|discriminate].
  simpl. intros H; inversion H; subst r.
  rewrite (squash_again quote text false new_data E). reflexivity.
Qed.

Lemma quote_scan_idempotent_witness :
  quote_loop (lit "(pcb " ++ [dquote; dquote] ++ lit ")") dquote 0 []
  = Ok (lit "(pcb " ++ [dquote; dquote] ++ lit ")").
Proof.
  apply (quote_scan_idempotent quoted_file). vm_compute. reflexivity.
Defined.

(** ** The shape of the tokens *)

Section CharProperty.
Variable P : ascii -> Prop.

Lemma lstrip_forall s : Forall P s -> Forall P (Py.lstrip s).
Proof.
  induction 1 as [|c s Hc Hs IH]; simpl; [constructor|].
  destruct (Py.isspace c); [exact IH | constructor; assumption].
Qed.

Lemma strip_forall s : Forall P s -> Forall P (Py.strip s).
Proof.
  intros H. unfold Py.strip, Py.rstrip. apply lstrip_forall.
  apply Forall_rev. apply lstrip_forall. apply Forall_rev. exact H.
Qed.

Lemma re_split_from_forall s :
  forall cur, Forall P cur -> Forall P s ->
              Forall (Forall P) (Py.re_split_from cur s).
Proof.
  induction s as [|c s IH]; intros cur Hcur Hs; simpl.
  - repeat constructor. exact Hcur.
  - inversion Hs; subst. destruct (Py.is_sep c).
    + constructor; [exact Hcur|]. constructor; [repeat constructor; auto|].
      apply IH; [constructor | assumption].
    + apply IH; [|assumption].
      apply Forall_app. split; [exact Hcur | repeat constructor; auto].
Qed.

Lemma split_tokens_forall s :
  Forall P s -> Forall (Forall P) (split_tokens s).
Proof.
  intros H. unfold split_tokens, Py.re_split.
  apply Forall_forall. intros t Hin. apply filter_In in Hin.
  destruct Hin as [Hin _]. apply in_map_iff in Hin.
  destruct Hin as (p & <- & Hp). apply strip_forall.
  pose proof (re_split_from_forall s [] (Forall_nil _) H) as Hall.
  rewrite Forall_forall in Hall. apply Hall. exact Hp.
Qed.

Lemma squash_forall quote inside s r :
  squash quote inside s = Some r -> Forall P s -> Forall P r.
Proof.
  revert inside r; induction s as [|c s IH]; intros inside r; simpl.
  - destruct inside; [discriminate|]. intros H _; inversion H. constructor.
  - intros H Hs. inversion Hs; subst.
    destruct (Ascii.eqb c quote) eqn:Ec.
    + apply Ascii.eqb_eq in Ec. subst c.
      destruct (squash quote (negb inside) s) as [r1|] eqn:E;
        [|discriminate].
      inversion H; subst. constructor; [assumption|].
      eapply IH; eassumption.
    + destruct inside; [eapply IH; eassumption|].
      destruct (squash quote false s) as [r1|] eqn:E; [|discriminate].
      inversion H; subst. constructor; [assumption|].
      eapply IH; eassumption.
Qed.
End CharProperty.

Lemma lower_char_idempotent c :
  Py.lower_char (Py.lower_char c) = Py.lower_char c.
Proof.
  destruct c as [[] [] [] [] [] [] [] []]; vm_compute; reflexivity.
Qed.

(** X14. Every token that [process] walks is in lower case: lowering it
    again changes nothing.  A keyword written in capitals in the file is
    therefore matched against the table like the same word in small
    letters. *)
Theorem tokens_lowercase (data : str) (tokens : list str) :
  lex data = Ok tokens -> Forall (fun t => Py.lower t = t) tokens.
Proof.
  unfold lex. rewrite quote_loop_squash. cbn [skipn].
  destruct (squash (detect_quote data) false (prepare data)) as [r|] eqn:E;
    [|discriminate].
  simpl. intros H; inversion H; subst tokens.
  assert (Hprep : Forall (fun c => Py.lower_char c = c) (prepare data)).
  { unfold prepare, Py.lower. apply Forall_forall. intros c Hin.
    apply in_map_iff in Hin. destruct Hin as (c0 & <- & _).
    apply lower_char_idempotent. }
  pose proof (squash_forall _ _ _ _ _ E Hprep) as Hr.
  pose proof (split_tokens_forall _ _ Hr) as Htok.
  eapply Forall_impl; [|exact Htok]. clear.
  intros t Ht. unfold Py.lower.
  induction Ht as [|c t Hc _ IH]; simpl; [reflexivity|].
  rewrite Hc, IH. reflexivity.
Qed.

Lemma tokens_lowercase_witness :
  Forall (fun t => Py.lower t = t) [lparen; lit "pcb"; rparen].
Proof.
  apply (tokens_lowercase (lit "(PCB)")). vm_compute. reflexivity.
Defined.

Lemma lstrip_no_space s :
  Forall (fun c => Py.isspace c = false) s -> Py.lstrip s = s.
Proof.
  intros H. destruct H as [|c s Hc Hs]; simpl; [reflexivity|].
  rewrite Hc. reflexivity.
Qed.

Lemma strip_no_space s :
  Forall (fun c => Py.isspace c = false) s -> Py.strip s = s.
Proof.
  intros H. unfold Py.strip, Py.rstrip.
  rewrite (lstrip_no_space (rev s)) by (apply Forall_rev; exact H).
  rewrite rev_involutive. apply lstrip_no_space. exact H.
Qed.

Lemma re_split_from_shape s :
  forall cur,
    forallb (fun c => negb (Py.is_sep c)) cur = true ->
    Forall (fun p => forallb (fun c => negb (Py.is_sep c)) p = true \/
                     exists c, p = [c] /\ Py.is_sep c = true)
      (Py.re_split_from cur s).
Proof.
  induction s as [|c s IH]; intros cur Hcur; simpl.
  - repeat constructor. exact Hcur.
  - destruct (Py.is_sep c) eqn:Ec.
    + constructor; [left; exact Hcur|].
      constructor; [right; exists c; auto|]. apply IH. reflexivity.
    + apply IH. rewrite forallb_app, Hcur. simpl. rewrite Ec. reflexivity.
Qed.

(** X15. Every token is a single parenthesis or a non-empty text that
    holds neither a parenthesis nor a white-space character; no token is
    empty, and white space never reaches the walk. *)
Theorem tokens_well_formed (data : str) (tokens : list str) :
  lex data = Ok tokens -> Forall (fun t => token_ok t = true) tokens.
Proof.
  unfold lex.
  destruct (quote_loop (prepare data) (detect_quote data) 0 [])
    as [new_data|e]; [|discriminate].
  intros H; inversion H; subst tokens. clear H.
  unfold split_tokens, Py.re_split.
  apply Forall_forall. intros t Hin. apply filter_In in Hin.
  destruct Hin as [Hin Hne]. apply in_map_iff in Hin.
  destruct Hin as (p & Hstrip & Hp).
  pose proof (re_split_from_shape new_data [] eq_refl) as Hall.
  rewrite Forall_forall in Hall. apply Hall in Hp. unfold token_ok.
  destruct Hp as [Hpiece | (c & -> & Hsep)].
  - assert (Hns : Forall (fun c => Py.isspace c = false) p).
    { apply Forall_forall. intros c Hc.
      rewrite forallb_forall in Hpiece. apply Hpiece in Hc.
      unfold Py.is_sep in Hc. apply negb_true_iff in Hc.
      apply orb_false_iff in Hc. tauto. }
    rewrite (strip_no_space _ Hns) in Hstrip. subst t.
    unfold atom_ok. rewrite Hne, Hpiece. simpl.
    rewrite !orb_true_r. reflexivity.
  - unfold Py.strip, Py.rstrip in Hstrip. simpl in Hstrip.
    destruct (Py.isspace c) eqn:Esp; simpl in Hstrip.
    + subst t. discriminate.
    + rewrite Esp in Hstrip. subst t.
      unfold Py.is_sep in Hsep. rewrite Esp, orb_false_r in Hsep.
      apply orb_true_iff in Hsep.
      destruct Hsep as [Hc | Hc]; apply Ascii.eqb_eq in Hc; subst c;
        reflexivity.
Qed.

Lemma tokens_well_formed_witness :
  Forall (fun t => token_ok t = true)
    [lparen; lit "pcb"; [dquote; dquote]; rparen].
Proof.
  apply (tokens_well_formed quoted_file). vm_compute. reflexivity.
Defined.

(** ** More on the report *)

Lemma path_then_count_antisym x y :
  path_then_count x y -> path_then_count y x -> x = y.
Proof.
  unfold path_then_count. destruct x as [vx kx], y as [vy ky]. simpl.
  intros [Hxy | [Exy Hxy]] [Hyx | [Eyx Hyx]].
  - rewrite (str_compare_antisym kx ky), Hyx in Hxy. discriminate.
  - subst. rewrite str_compare_refl in Hxy. discriminate.
  - subst. rewrite str_compare_refl in Hyx. discriminate.
  - subst. f_equal. lia.
Qed.

Lemma sorted_perm_unique (l1 : list (nat * str)) :
  forall l2,
    StronglySorted path_then_count l1 ->
    StronglySorted path_then_count l2 ->
    Permutation l1 l2 -> l1 = l2.
Proof.
  induction l1 as [|x l1 IH]; intros l2 Hs1 Hs2 Hperm.
  - apply Permutation_nil in Hperm. subst. reflexivity.
  - destruct l2 as [|y l2].
    + apply Permutation_sym, Permutation_nil in Hperm. discriminate.
    + inversion Hs1 as [|? ? Hs1' Hx]; subst.
      inversion Hs2 as [|? ? Hs2' Hy]; subst.
      assert (Hxy : x = y).
      { assert (Hin1 : In x (y :: l2))
          by (eapply Permutation_in; [exact Hperm | left; reflexivity]).
        assert (Hin2 : In y (x :: l1))
          by (eapply Permutation_in;
              [apply Permutation_sym; exact Hperm | left; reflexivity]).
        destruct Hin1 as [Heq | Hin1]; [congruence|].
        destruct Hin2 as [Heq | Hin2]; [congruence|].
        rewrite Forall_forall in Hx, Hy.
        apply path_then_count_antisym; [apply Hx | apply Hy]; assumption. }
      subst y. f_equal. apply IH; try assumption.
      eapply Permutation_cons_inv. exact Hperm.
Qed.

Lemma report_strongly_sorted g : StronglySorted path_then_count (report g).
Proof.
  apply Sorted_StronglySorted.
  - intros x y z. apply path_then_count_trans.
  - apply sort_sorted.
    + intros x y. apply path_then_count_of_not_lt.
    + intros x y. apply path_then_count_of_lt.
Qed.

Lemma report_perm g :
  Permutation (report g) (map (fun kv => (snd kv, fst kv)) (counts g)).
Proof. apply sort_perm. Qed.

(** X16. The report does not depend on the order in which the paths were
    first seen: two accumulators that hold the same entries, in whatever
    order, are printed as the same lines. *)
Theorem print_counts_order_free (g1 g2 : Globals) :
  Permutation (counts g1) (counts g2) -> print_counts g1 = print_counts g2.
Proof.
  intros Hperm.
  change (map line (report g1) = map line (report g2)). f_equal.
  apply sorted_perm_unique; try apply report_strongly_sorted.
  rewrite (report_perm g1), (report_perm g2).
  apply Permutation_map. exact Hperm.
Qed.

Lemma print_counts_order_free_witness :
  print_counts {| path := []; counts := [(lit "b", 1); (lit "a", 2)] |}
  = print_counts {| path := []; counts := [(lit "a", 2); (lit "b", 1)] |}.
Proof.
  apply print_counts_order_free. simpl. apply perm_swap.
Defined.

Lemma strictly_sorted_of_nodup (l : list (nat * str)) :
  StronglySorted path_then_count l ->
  NoDup (map snd l) ->
  StronglySorted path_before l.
Proof.
  induction 1 as [|x l Hs IH Hx]; intros Hnd; [constructor|].
  simpl in Hnd. inversion Hnd as [|? ? Hnotin Hnd']; subst.
  constructor; [apply IH; exact Hnd'|].
  rewrite Forall_forall in *. intros y Hy.
  destruct (Hx y Hy) as [Hlt | [Heq _]]; [exact Hlt|].
  exfalso. apply Hnotin. rewrite Heq. apply in_map. exact Hy.
Qed.

(** X17. In every run of the script the report names every path once, and
    its lines are in strictly ascending order of the path: what [main]
    prints is the failure notices followed by one line for each pair of
    [report], and in [report] every path is smaller than all the paths
    after it. *)
Theorem main_report_strict (files : list file) :
  main files
  = fst (main_loop files init)
    ++ map line (report (snd (main_loop files init))) /\
  StronglySorted path_before (report (snd (main_loop files init))).
Proof.
  split.
  - unfold main. destruct (main_loop files init) as [out g]. reflexivity.
  - apply strictly_sorted_of_nodup; [apply report_strongly_sorted|].
    assert (Hok : dict_ok (counts (snd (main_loop files init)))).
    { apply (lifts_main_loop (fun d d' => dict_ok d -> dict_ok d'));
        [auto | auto | intros d ct; apply add_path_ok |].
      split; constructor. }
    destruct Hok as [Hnd _].
    eapply Permutation_NoDup.
    + apply Permutation_map. apply Permutation_sym. apply report_perm.
    + rewrite map_map. simpl. exact Hnd.
Qed.

(** ** Groups and the accumulator in the walk *)

(** X18. A group [( name )] is a round trip on [path]: the turn at the
    open parenthesis pushes [name], whatever token it is apart from the
    closing parenthesis and whether it is a keyword or not, and counts the
    extended path; the turn at the closing parenthesis pops it, so that
    [path] is what it was before the group and only the count of the
    extended path has changed. *)
Theorem group_round_trip (tokens : list str) (idx : nat) (nt : str)
    (g : Globals) :
  nth_error tokens idx = Some lparen ->
  nth_error tokens (idx + 1) = Some nt ->
  nt <> rparen ->
  nth_error tokens (idx + 1 + 1) = Some rparen ->
  loop_body tokens idx g
  = (Ok (idx + 1 + 1),
     {| path := path g ++ [nt];
        counts :=
          Dict.incr (Py.join dot (path g ++ [nt]))
            (Dict.setdefault (Py.join dot (path g ++ [nt])) 0
               (counts g)) |}) /\
  loop_body tokens (idx + 1 + 1)
    {| path := path g ++ [nt];
       counts :=
         Dict.incr (Py.join dot (path g ++ [nt]))
           (Dict.setdefault (Py.join dot (path g ++ [nt])) 0 (counts g)) |}
  = (Ok (idx + 1 + 1 + 1),
     {| path := path g;
        counts :=
          Dict.incr (Py.join dot (path g ++ [nt]))
            (Dict.setdefault (Py.join dot (path g ++ [nt])) 0
               (counts g)) |}).
Proof.
  intros Hopen Hname Hne Hclose. split.
  - rewrite loop_body_cases, Hopen, str_eqb_refl, Hname.
    rewrite (str_eqb_neq _ _ Hne). reflexivity.
  - rewrite loop_body_cases, Hclose.
    replace (Py.str_eqb rparen lparen) with false by reflexivity.
    rewrite str_eqb_refl. cbn [path counts].
    destruct (path g ++ [nt]) as [|x p] eqn:E.
    + destruct (path g); discriminate.
    + rewrite <- E, removelast_last. reflexivity.
Qed.

Lemma group_round_trip_witness :
  loop_body [lparen; lit "r1"; rparen] 0 init
  = (Ok 2, {| path := [lit "r1"]; counts := [(lit "r1", 1)] |}) /\
  loop_body [lparen; lit "r1"; rparen] 2
    {| path := [lit "r1"]; counts := [(lit "r1", 1)] |}
  = (Ok 3, {| path := []; counts := [(lit "r1", 1)] |}).
Proof.
  apply (group_round_trip [lparen; lit "r1"; rparen] 0 (lit "r1") init).
  - reflexivity.
  - reflexivity.
  - discriminate.
  - reflexivity.
Defined.

Lemma walk_ignores_counts_from tokens :
  forall n idx p c1 c2,
    length tokens - idx <= n ->
    fst (walk tokens idx {| path := p; counts := c1 |})
    = fst (walk tokens idx {| path := p; counts := c2 |}) /\
    path (snd (walk tokens idx {| path := p; counts := c1 |}))
    = path (snd (walk tokens idx {| path := p; counts := c2 |})).
Proof.
  induction n as [|n IH]; intros idx p c1 c2 Hn;
    destruct (nth_error tokens idx) as [t|] eqn:Ht.
  - assert (idx < length tokens) by (apply nth_error_Some; congruence). lia.
  - rewrite !walk_end by (apply nth_error_None; exact Ht). auto.
  - assert (Hlt : idx < length tokens)
      by (apply nth_error_Some; congruence).
    rewrite !walk_turn by exact Hlt. rewrite !loop_body_cases, Ht.
    cbn [path counts].
    destruct (Py.str_eqb t lparen).
    + destruct (nth_error tokens (idx + 1)) as [nt|]; [|auto].
      destruct (Py.str_eqb nt rparen); [auto|].
      cbn [add_path path_append snd path counts]. apply IH. lia.
    + destruct (Py.str_eqb t rparen).
      * destruct p as [|x p]; [auto|]. apply IH. lia.
      * destruct p as [|x p]; [auto|].
        destruct (valid_keyword t); apply IH; lia.
  - rewrite !walk_end by (apply nth_error_None; exact Ht). auto.
Qed.

(** X19. The accumulator never steers [process]: started with the same
    [path] and two different accumulators, it returns normally or raises
    the same exception in both cases, and leaves the same [path]. *)
Theorem process_ignores_counts (data : str) (p : list str)
    (c1 c2 : Dict.t) :
  fst (process data {| path := p; counts := c1 |})
  = fst (process data {| path := p; counts := c2 |}) /\
  path (snd (process data {| path := p; counts := c1 |}))
  = path (snd (process data {| path := p; counts := c2 |})).
Proof.
  unfold process. destruct (lex data) as [tokens|e]; [|auto].
  unfold bind, path_len, assert.
  destruct (walk_ignores_counts_from tokens (length tokens) 0 p c1 c2
              ltac:(lia)) as [Hr Hp].
  destruct (walk tokens 0 {| path := p; counts := c1 |}) as [r1 g1].
  destruct (walk tokens 0 {| path := p; counts := c2 |}) as [r2 g2].
  simpl in Hr, Hp. subst r2.
  destruct r1 as [[]|e]; [|auto].
  rewrite Hp. destruct (path g2) eqn:E2; simpl; rewrite Hp, E2; auto.
Qed.

(** ** Files without quotes *)

Lemma remove_all_in old s c : In c (Py.remove_all old s) -> In c s.
Proof.
  revert c. funelim (Py.remove_all old s); intros c0 Hin.
  - exact Hin.
  - exact Hin.
  - right. apply H in Hin.
    rewrite <- (firstn_skipn (length old') s'). apply in_or_app.
    right. exact Hin.
  - destruct Hin as [Heq0 | Hin]; [left; exact Heq0 | right; auto].
Qed.

Lemma detect_quote_cases data :
  detect_quote data = dquote \/ detect_quote data = squote \/
  detect_quote data = dollar.
Proof.
  unfold detect_quote.
  destruct (Py.contains (marker dollar) data); [auto|].
  destruct (Py.contains (marker squote) data); [auto|].
  destruct (Py.contains (marker dquote) data); auto.
Qed.

Lemma lower_char_quote data c :
  Py.lower_char c = detect_quote data -> c = detect_quote data.
Proof.
  destruct (detect_quote_cases data) as [-> | [-> | ->]];
    destruct c as [[] [] [] [] [] [] [] []]; vm_compute;
    intros H; try discriminate H; reflexivity.
Qed.

Lemma prepare_quote_in data :
  In (detect_quote data) (prepare data) -> In (detect_quote data) data.
Proof.
  unfold prepare, Py.lower, strip_escapes, strip_markers. intros Hin.
  apply in_map_iff in Hin. destruct Hin as (c & Hc & Hin).
  apply lower_char_quote in Hc. subst c.
  repeat apply remove_all_in in Hin. exact Hin.
Qed.

(** X20. A file in which the active quote character does not occur never
    fails in the lexer: the quote scan returns the prepared text as it is,
    and the tokens are those of that text. *)
Theorem lex_without_quote (data : str) :
  ~ In (detect_quote data) data ->
  lex data = Ok (split_tokens (prepare data)).
Proof.
  intros Hnot. unfold lex. rewrite quote_loop_squash. cbn [skipn].
  rewrite squash_no_quote; [reflexivity|].
  apply (count_occ_not_In ascii_dec). intros Hin. apply Hnot.
  apply prepare_quote_in. exact Hin.
Qed.

Lemma lex_without_quote_witness :
  lex sample_file = Ok (split_tokens (prepare sample_file)).
Proof.
  apply lex_without_quote. vm_compute. intuition discriminate.
Defined.
